(** * flare_bypasser.async_client: a shallow embedding and its properties

    The development follows [src/flare_bypasser/async_client.py]:
    - [PyStr]: the Python string operations the client uses
      ([str.lower], [in], [str.startswith], [str]);
    - [Re]: the fragment of [re] patterns the client searches for, with
      a derivative matcher and its correctness against the usual
      denotation of regular expressions;
    - the data the client works on (cookies, the cookie jar, responses,
      the solver's request and response) and the client itself, with the
      transport and the solver as explicit environment;
    - the properties of the request loop and of the solver handoff. *)

From Stdlib Require Import String Ascii List ZArith Lia Bool DecimalString.
From stdpp Require Import gmap strings.

Import ListNotations.
Local Open Scope string_scope.
Local Open Scope list_scope.

Set Implicit Arguments.

(* ===================================================================== *)
(** ** Python strings *)
(* ===================================================================== *)

(** A Python [str] is modelled as a sequence of code points below 256
    (Rocq's [ascii]); every literal of the client is plain ASCII. *)

Module PyStr.

Definition text := list ascii.

Definition of_string (s : string) : text := list_ascii_of_string s.

Definition code (c : ascii) : N := N_of_ascii c.

(** [str.lower] on one code point: A-Z, and the upper-case letters of the
    Latin-1 block (U+00C0-U+00DE without the multiplication sign). *)
Definition lower_char (c : ascii) : ascii :=
  let n := code c in
  if ((65 <=? n) && (n <=? 90))%N then ascii_of_N (n + 32)
  else if ((192 <=? n) && (n <=? 222) && negb (n =? 215))%N then ascii_of_N (n + 32)
  else c.

Definition lower (s : text) : text := map lower_char s.

(** The class [\s] of [re] on a [str] pattern, i.e. [str.isspace]:
    U+0009-U+000D, U+001C-U+0020, U+0085 and U+00A0. *)
Definition is_space (c : ascii) : bool :=
  let n := code c in
  (((9 <=? n) && (n <=? 13)) || ((28 <=? n) && (n <=? 32))
   || (n =? 133) || (n =? 160))%N.

(** [s.startswith(p)] *)
Fixpoint startswith (p s : text) : bool :=
  match p, s with
  | [], _ => true
  | _ :: _, [] => false
  | a :: p', b :: s' => Ascii.eqb a b && startswith p' s'
  end.

(** [needle in hay] *)
Fixpoint contains (needle hay : text) : bool :=
  startswith needle hay ||
  match hay with
  | [] => false
  | _ :: hay' => contains needle hay'
  end.

(** what [in] decides: the needle occurs as a contiguous slice *)
Definition Occurs (needle hay : text) : Prop :=
  exists pre post, hay = pre ++ needle ++ post.

(** [str(n)] for an [int] *)
Definition str_int (z : Z) : string := NilZero.string_of_int (Z.to_int z).

Definition str_nat (n : nat) : string := str_int (Z.of_nat n).

(** a string occurs inside another one *)
Definition Mentions (part whole : string) : Prop :=
  exists pre post, whole = (pre +:+ part +:+ post)%string.

End PyStr.

(* ===================================================================== *)
(** ** Regular expressions *)
(* ===================================================================== *)

(** The patterns of the client use literals, the classes [\s] and [[^><]]
    and the star; [re.search] on such a pattern decides whether some slice of
    the subject belongs to the pattern's language. *)

Module Re.

Import PyStr.

Inductive regex : Type :=
| Void : regex
| Eps : regex
| Class (p : ascii -> bool) : regex
| Cat (r1 r2 : regex) : regex
| Alt (r1 r2 : regex) : regex
| Star (r : regex) : regex.

(** the language of a pattern *)
Inductive matches : regex -> text -> Prop :=
| MEps : matches Eps []
| MClass p c : p c = true -> matches (Class p) [c]
| MCat r1 r2 s1 s2 :
    matches r1 s1 -> matches r2 s2 -> matches (Cat r1 r2) (s1 ++ s2)
| MAltL r1 r2 s : matches r1 s -> matches (Alt r1 r2) s
| MAltR r1 r2 s : matches r2 s -> matches (Alt r1 r2) s
| MStarNil r : matches (Star r) []
| MStarApp r s1 s2 :
    matches r s1 -> matches (Star r) s2 -> matches (Star r) (s1 ++ s2).

Fixpoint nullable (r : regex) : bool :=
  match r with
  | Void => false
  | Eps => true
  | Class _ => false
  | Cat r1 r2 => nullable r1 && nullable r2
  | Alt r1 r2 => nullable r1 || nullable r2
  | Star _ => true
  end.

(** concatenation and union that drop the dead branches *)
Definition cat (r1 r2 : regex) : regex :=
  match r1, r2 with
  | Void, _ => Void
  | _, Void => Void
  | Eps, _ => r2
  | _, _ => Cat r1 r2
  end.

Definition alt (r1 r2 : regex) : regex :=
  match r1, r2 with
  | Void, _ => r2
  | _, Void => r1
  | _, _ => Alt r1 r2
  end.

Fixpoint deriv (c : ascii) (r : regex) : regex :=
  match r with
  | Void => Void
  | Eps => Void
  | Class p => if p c then Eps else Void
  | Cat r1 r2 =>
      if nullable r1 then alt (cat (deriv c r1) r2) (deriv c r2)
      else cat (deriv c r1) r2
  | Alt r1 r2 => alt (deriv c r1) (deriv c r2)
  | Star r1 => cat (deriv c r1) (Star r1)
  end.

(** [re.fullmatch(r, s) is not None] *)
Fixpoint fullmatch (r : regex) (s : text) : bool :=
  match s with
  | [] => nullable r
  | c :: s' => fullmatch (deriv c r) s'
  end.

Definition any : regex := Star (Class (fun _ => true)).

(** [re.search(r, s)] as a truth value *)
Definition search (r : regex) (s : text) : bool :=
  fullmatch (Cat any (Cat r any)) s.

(** what [search] decides *)
Definition Found (r : regex) (s : text) : Prop :=
  exists pre m post, s = pre ++ m ++ post /\ matches r m.

(** pattern builders *)
Fixpoint lit (s : text) : regex :=
  match s with
  | [] => Eps
  | c :: s' => Cat (Class (Ascii.eqb c)) (lit s')
  end.

Definition str (s : string) : regex := lit (of_string s).

Fixpoint seq (rs : list regex) : regex :=
  match rs with
  | [] => Eps
  | [r] => r
  | r :: rs' => Cat r (seq rs')
  end.

End Re.

(* ===================================================================== *)
(** ** The patterns of the client *)
(* ===================================================================== *)

Module Pattern.

Import PyStr Re.

(** [\s] and [\s*] *)
Definition sp : regex := Class is_space.
Definition ws : regex := Star sp.

(** [[^><]] and [[^><]*] *)
Definition not_angle (c : ascii) : bool :=
  negb (Ascii.eqb c ">") && negb (Ascii.eqb c "<").
Definition na : regex := Star (Class not_angle).

(** [<\s*title\s*>] inner [<\s*/\s*title\s*>] *)
Definition title (inner : regex) : regex :=
  seq [str "<"; ws; str "title"; ws; str ">";
       inner;
       str "<"; ws; str "/"; ws; str "title"; ws; str ">"].

(** [<\s*title\s*>\s*access denied\s[^><]*cloudflare[^><]*<\s*/\s*title\s*>] *)
Definition inner_access_denied : regex :=
  seq [ws; str "access denied"; sp; na; str "cloudflare"; na].
Definition re_access_denied : regex := title inner_access_denied.

(** [<\s*title\s*>\s*ip banned[^><]*<\s*/\s*title\s*>] *)
Definition inner_ip_banned : regex := seq [ws; str "ip banned"; na].
Definition re_ip_banned : regex := title inner_ip_banned.

(** [<\s*title\s*>[^><]*just a moment\.\.\.[^><]*<\s*/\s*title\s*>] *)
Definition inner_just_a_moment : regex := seq [na; str "just a moment..."; na].
Definition re_just_a_moment : regex := title inner_just_a_moment.

(** [<\s*title\s*>[^><]*attention required\s*![^><]*<\s*/\s*title\s*>] *)
Definition inner_attention_required : regex :=
  seq [na; str "attention required"; ws; str "!"; na].
Definition re_attention_required : regex := title inner_attention_required.

(** [<\s*title\s*>[^><]*captcha challenge[^><]*<\s*/\s*title\s*>] *)
Definition inner_captcha_challenge : regex := seq [na; str "captcha challenge"; na].
Definition re_captcha_challenge : regex := title inner_captcha_challenge.

(** [<\s*title\s*>[^><]*ddos-guard[^><]*<\s*/\s*title\s*>] *)
Definition inner_ddos_guard : regex := seq [na; str "ddos-guard"; na].
Definition re_ddos_guard : regex := title inner_ddos_guard.

End Pattern.

(* ===================================================================== *)
(** ** Data *)
(* ===================================================================== *)

(** A Python [dict] with [str] keys whose iteration order is observed: the
    keys in insertion order; assigning to a key that is present keeps its
    place. *)
Module PyDict.

Definition t (V : Type) : Type := list (string * V).

(** [d.get(k)] *)
Fixpoint get {V} (k : string) (d : t V) : option V :=
  match d with
  | [] => None
  | (k', v) :: d' => if String.eqb k k' then Some v else get k d'
  end.

(** [d[k] = v] *)
Fixpoint set {V} (k : string) (v : V) (d : t V) : t V :=
  match d with
  | [] => [(k, v)]
  | (k', v') :: d' =>
      if String.eqb k k' then (k, v) :: d' else (k', v') :: set k v d'
  end.

(** [d.values()] *)
Definition values {V} (d : t V) : list V := map snd d.

End PyDict.

(** [http.cookiejar.Cookie], with the attributes the client reads and one
    it does not. *)
Module Cookie.

Record t : Type := mk {
  name : string;
  value : option string;
  domain : string;
  path : string;
  port : option string;
  secure : bool;
  expires : option Z;
  discard : bool
}.

End Cookie.

(** [http.cookiejar.CookieJar]: the cookies by domain, then path, then name
    ([set_cookie]); iterating the jar walks the three levels in order
    ([deepvalues]). *)
Module CookieJar.

Definition t : Type := PyDict.t (PyDict.t (PyDict.t Cookie.t)).

Definition empty : t := [].

Definition set_cookie (c : Cookie.t) (jar : t) : t :=
  let c2 := default [] (PyDict.get (Cookie.domain c) jar) in
  let c3 := default [] (PyDict.get (Cookie.path c) c2) in
  PyDict.set (Cookie.domain c)
    (PyDict.set (Cookie.path c) (PyDict.set (Cookie.name c) c c3) c2) jar.

(** [for c in jar] *)
Definition iter (jar : t) : list Cookie.t :=
  flat_map (fun c2 => flat_map PyDict.values (PyDict.values c2))
           (PyDict.values jar).

(** the cookie stored under (name, domain, path), if any *)
Definition lookup (name domain path : string) (jar : t) : option Cookie.t :=
  match PyDict.get domain jar with
  | None => None
  | Some c2 =>
      match PyDict.get path c2 with
      | None => None
      | Some c3 => PyDict.get name c3
      end
  end.

(** [httpx.Cookies.set(name, value, domain, path)] *)
Definition set (name value domain path : string) (jar : t) : t :=
  set_cookie
    {| Cookie.name := name; Cookie.value := Some value;
       Cookie.domain := domain; Cookie.path := path;
       Cookie.port := None; Cookie.secure := false;
       Cookie.expires := None; Cookie.discard := true |} jar.

End CookieJar.

(** The transport's client object; the wrapper reads and writes its jar. *)
Module HttpClient.

Record t : Type := mk { cookies : CookieJar.t }.

End HttpClient.

(** [httpx.Response], as far as the wrapper looks at it;
    [content_type] is [headers.get('content-type')]. *)
Module Response.

Record t : Type := mk {
  status_code : Z;
  content_type : option string;
  text : string
}.

End Response.

(** The solver's protocol. *)
Module Solver.

(** one entry of [solve_send_cookies] *)
Record cookie_dict : Type := mk_cookie_dict {
  name : string;
  value : option string;
  domain : string;
  path : string;
  port : option string;
  secure : bool;
  expires : option Z
}.

(** [solver_request] *)
Record request : Type := mk_request {
  maxTimeout : Z;
  url : string;
  cookies : list cookie_dict;
  proxy : option string
}.

(** One entry of the solution's [cookies]; a key may be missing. *)
Record solution_cookie : Type := mk_solution_cookie {
  c_name : option string;
  c_value : option string;
  c_domain : option string;
  c_path : option string
}.

(** [response_json["solution"]]; a key may be missing. *)
Record solution : Type := mk_solution {
  userAgent : option string;
  s_cookies : option (list solution_cookie)
}.

(** [solver_response.json()]; the client reads the key ["solution"] only. *)
Record response_json : Type := mk_response_json {
  j_solution : option solution
}.

(** The solver's HTTP response; [json] is [None] when the body is not
    JSON. *)
Record response : Type := mk_response {
  status_code : Z;
  json : option response_json
}.

End Solver.

(** The exceptions that leave the client. [Exception] and
    [CloudFlareBlocked] are the two classes nested in [AsyncClient]; the
    others come from Python or from the transport. *)
Inductive PyException : Type :=
| Exception (msg : string)
| CloudFlareBlocked (msg : string)
| KeyError (key : string)
| AttributeError (msg : string)
| JSONDecodeError
| TransportError (msg : string).

Abbreviation headers := (gmap string string).

(** A value handed to the constructor or returned by the transport. *)
Inductive PyValue : Type :=
| PyNone
| PyBool (b : bool)
| PyInt (z : Z)
| PyStr (s : string)
| PyDict (items : list (string * string)).

(** [**kwargs] of the constructor: ['proxy'], which the client reads, and
    the other keywords by name. All of them are kept for the constructor of
    the transport client. *)
Record Kwargs : Type := mk_kwargs {
  kw_proxy : option string;
  kw_others : gmap string PyValue
}.

(** The instance attributes of [AsyncClient]. *)
Record AsyncClient : Type := mk_client {
  _solver_url : string;
  _http_client : option HttpClient.t;
  _args : list PyValue;
  _kwargs : Kwargs;
  _user_agent : string;
  _max_tries : nat
}.

Definition default_user_agent : string :=
  "Mozilla/5.0 (X11; Linux x86_64) AppleWebKit/537.36 (KHTML, like Gecko) Chrome/131.0.0.0 Safari/537.36".

(** [AsyncClient(solver_url, *args, **kwargs)] *)
Definition __init__ (solver_url : string) (args : list PyValue)
    (kwargs : Kwargs) : AsyncClient :=
  {| _solver_url := solver_url; _http_client := None; _args := args;
     _kwargs := kwargs; _user_agent := default_user_agent; _max_tries := 2 |}.

(** the message of Python for an attribute read on [None] *)
Definition no_attribute (attr : string) : string :=
  "'NoneType' object has no attribute '" +:+ attr +:+ "'".

(* ===================================================================== *)
(** ** The client *)
(* ===================================================================== *)

(** The two tests of [_request] on the lower-cased body. *)
Module Block.

Import PyStr Re Pattern.

Definition has (phrase : string) (response_text : text) : bool :=
  contains (of_string phrase) response_text.

(** "check that it is cloud flare unsolvable block" *)
Definition unsolvable (response_text : text) : bool :=
  (has "access denied" response_text &&
   search re_access_denied response_text)
  ||
  (has "ip banned" response_text && has "cloudflare" response_text &&
   search re_ip_banned response_text).

(** "check that it is cloud flare block" *)
Definition solvable (response_text : text) : bool :=
  (has "just a moment..." response_text &&
   search re_just_a_moment response_text)
  ||
  (has "attention required!" response_text &&
   search re_attention_required response_text)
  ||
  (has "captcha challenge" response_text &&
   search re_captcha_challenge response_text)
  ||
  (has "ddos-guard" response_text &&
   search re_ddos_guard response_text).

(** the guard in front of both: status 403, an HTML content type and a
    body that is not empty *)
Definition inspected (response : Response.t) : bool :=
  (Response.status_code response =? 403)%Z &&
  startswith (of_string "text/html")
             (of_string (default EmptyString (Response.content_type response))) &&
  negb (String.eqb (Response.text response) EmptyString).

End Block.

Section Client.

(** The world outside the client: the sites behind the transport and the
    solver service. *)
Context {World : Type}.

(** [run_method]: [httpx.AsyncClient.get] or [.post] with the caller's
    other arguments; it may read and change the client's jar. *)
Definition Transport : Type :=
  World -> HttpClient.t -> string -> headers ->
  World * HttpClient.t * (PyException + Response.t).

(** [httpx.AsyncClient(http2 = True, *args, **kwargs)]: the constructor of
    the transport client, on arguments it accepts; what it makes of them,
    the jar it starts with included, is the transport's. *)
Variable httpx_AsyncClient : list PyValue -> Kwargs -> HttpClient.t.

(** [solver_client.post(endpoint, json=solver_request)] *)
Variable solver_post :
  World -> string -> Solver.request -> World * (PyException + Solver.response).

(** [json.dumps] on the solver's answer and on the request *)
Variable json_dumps_response : Solver.response_json -> string.
Variable json_dumps_request : Solver.request -> string.

(** What the client does to the outside, in order. *)
Inductive Event : Type :=
| EvRequest (url : string) (send_headers : headers)
            (r : PyException + Response.t)
| EvSolverPost (endpoint : string) (solver_request : Solver.request)
               (r : PyException + Solver.response).

Record Machine : Type := mk_machine { world : World; self : AsyncClient }.

Record Outcome (A : Type) : Type := mk_outcome {
  final : Machine;
  trace : list Event;
  result : PyException + A
}.

(** Computations of the client: they read and write [self], talk to the
    world, and return or raise. *)
Definition M (A : Type) : Type := Machine -> Outcome A.

Definition ret {A} (a : A) : M A :=
  fun m => {| final := m; trace := []; result := inr a |}.

Definition raise {A} (e : PyException) : M A :=
  fun m => {| final := m; trace := []; result := inl e |}.

Definition bind {A B} (c : M A) (k : A -> M B) : M B :=
  fun m =>
    let o := c m in
    match result o with
    | inl e => {| final := final o; trace := trace o; result := inl e |}
    | inr a =>
        let o' := k a (final o) in
        {| final := final o'; trace := trace o ++ trace o';
           result := result o' |}
    end.

Notation "x <- c ;> k" := (bind c (fun x => k))
  (at level 20, c at level 99, k at level 200, only parsing).
Notation "c ;> k" := (bind c (fun _ => k))
  (at level 100, k at level 200, right associativity, only parsing).

Definition get_self : M AsyncClient :=
  fun m => {| final := m; trace := []; result := inr (self m) |}.

Definition put_self (s : AsyncClient) : M unit :=
  fun m => {| final := {| world := world m; self := s |}; trace := [];
              result := inr tt |}.

Definition with_http_client (c : option HttpClient.t) (s : AsyncClient)
  : AsyncClient :=
  {| _solver_url := _solver_url s; _http_client := c;
     _args := _args s; _kwargs := _kwargs s;
     _user_agent := _user_agent s; _max_tries := _max_tries s |}.

Definition with_user_agent (ua : string) (s : AsyncClient) : AsyncClient :=
  {| _solver_url := _solver_url s; _http_client := _http_client s;
     _args := _args s; _kwargs := _kwargs s; _user_agent := ua;
     _max_tries := _max_tries s |}.

(** [d[key]] on a key that may be missing *)
Definition getitem {A} (o : option A) (key : string) : M A :=
  match o with
  | Some a => ret a
  | None => raise (KeyError key)
  end.

(** [self._http_client.<attr>] *)
Definition http_client_attr (attr : string) : M HttpClient.t :=
  s <- get_self ;>
  match _http_client s with
  | Some c => ret c
  | None => raise (AttributeError (no_attribute attr))
  end.

(** [for x in xs: body(x)] *)
Fixpoint for_each {A} (xs : list A) (body : A -> M unit) : M unit :=
  match xs with
  | [] => ret tt
  | x :: xs' => body x ;> for_each xs' body
  end.

(** [await run_method(self._http_client, url, headers = send_headers)];
    the two methods of the transport start by reading [request] of the
    client they are given. *)
Definition await_run_method (run_method : Transport) (url : string)
    (send_headers : headers) : M Response.t :=
  fun m =>
    match _http_client (self m) with
    | None =>
        {| final := m; trace := [];
           result := inl (AttributeError (no_attribute "request")) |}
    | Some c =>
        let '(w, c', r) := run_method (world m) c url send_headers in
        {| final := {| world := w;
                       self := with_http_client (Some c') (self m) |};
           trace := [EvRequest url send_headers r];
           result := r |}
    end.

(** [await solver_client.post(endpoint, json = solver_request)] *)
Definition await_solver_post (endpoint : string)
    (solver_request : Solver.request) : M Solver.response :=
  fun m =>
    let '(w, r) := solver_post (world m) endpoint solver_request in
    {| final := {| world := w; self := self m |};
       trace := [EvSolverPost endpoint solver_request r];
       result := r |}.

(** [if not self._http_client: self._http_client =
    httpx.AsyncClient(http2 = True, *self._args, **self._kwargs)] *)
Definition _init_client : M unit :=
  s <- get_self ;>
  match _http_client s with
  | Some _ => ret tt
  | None =>
      put_self (with_http_client
                  (Some (httpx_AsyncClient (_args s) (_kwargs s))) s)
  end.

(** the dict appended to [solve_send_cookies] for a cookie of the jar *)
Definition send_cookie (c : Cookie.t) : Solver.cookie_dict :=
  {| Solver.name := Cookie.name c;
     Solver.value := Cookie.value c;
     Solver.domain := Cookie.domain c;
     Solver.path := Cookie.path c;
     Solver.port := Cookie.port c;
     Solver.secure := Cookie.secure c;
     Solver.expires := Cookie.expires c |}.

(** [self._http_client.cookies.set(name=c['name'], value=c['value'],
    domain=c.get('domain', ''), path=c.get('path', '/'))] *)
Definition set_solver_cookie (c : Solver.solution_cookie) : M unit :=
  client <- http_client_attr "cookies" ;>
  name <- getitem (Solver.c_name c) "name" ;>
  value <- getitem (Solver.c_value c) "value" ;>
  let domain := default EmptyString (Solver.c_domain c) in
  let path := default "/" (Solver.c_path c) in
  s <- get_self ;>
  put_self (with_http_client
              (Some {| HttpClient.cookies :=
                         CookieJar.set name value domain path
                                       (HttpClient.cookies client) |}) s).

Definition _solve_challenge (url : string) : M unit :=
  s <- get_self ;>
  let solve_send_cookies :=
    match _http_client s with
    | Some client => map send_cookie (CookieJar.iter (HttpClient.cookies client))
    | None => []
    end in
  let solver_request :=
    {| Solver.maxTimeout := 60000;
       Solver.url := url;
       Solver.cookies := solve_send_cookies;
       Solver.proxy := kw_proxy (_kwargs s) |} in
  solver_response <-
    await_solver_post (_solver_url s +:+ "/get_cookies") solver_request ;>
  if negb (Solver.status_code solver_response =? 200)%Z then
    raise (Exception ("Solver is unavailable: status_code = " +:+
                      PyStr.str_int (Solver.status_code solver_response)))
  else
    match Solver.json solver_response with
    | None => raise JSONDecodeError
    | Some response_json =>
        match Solver.j_solution response_json with
        | None =>
            raise (Exception
              ("Can't solve challenge: no solution in response for '" +:+
               url +:+ "': " +:+
               "response: " +:+ json_dumps_response response_json +:+
               " on request: " +:+ json_dumps_request solver_request))
        | Some response_solution_json =>
            user_agent <-
              getitem (Solver.userAgent response_solution_json) "userAgent" ;>
            s' <- get_self ;>
            put_self (with_user_agent user_agent s') ;>
            solver_cookies <-
              getitem (Solver.s_cookies response_solution_json) "cookies" ;>
            for_each solver_cookies set_solver_cookie
        end
    end.

(** [url if not solve_url else solve_url] *)
Definition solve_target (url : string) (solve_url : option string) : string :=
  match solve_url with
  | None => url
  | Some u => if String.eqb u EmptyString then url else u
  end.

(** [send_headers]: a copy of the caller's headers with the two entries
    of the client assigned *)
Definition make_send_headers (hdrs : headers) (user_agent : string) : headers :=
  <["cache-control" := "no-cache"]> (<["user-agent" := user_agent]> hdrs).

(** The [for try_i in range(...)] loop of [_request] with [tries]
    iterations left, and the [raise] behind it. *)
Fixpoint _request_loop (tries : nat) (run_method : Transport) (url : string)
    (solve_url : option string) (hdrs : headers) : M Response.t :=
  match tries with
  | O =>
      s <- get_self ;>
      raise (Exception ("Can't solve challenge: challenge got " +:+
                        PyStr.str_nat (_max_tries s) +:+
                        " times ... (max tries exceded)"))
  | S tries' =>
      s <- get_self ;>
      let send_headers := make_send_headers hdrs (_user_agent s) in
      response <- await_run_method run_method url send_headers ;>
      if Block.inspected response then
        let response_text :=
          PyStr.lower (PyStr.of_string (Response.text response)) in
        if Block.unsolvable response_text then
          raise (CloudFlareBlocked "IP blocked by cloud flare")
        else if Block.solvable response_text then
          _solve_challenge (solve_target url solve_url) ;>
          _request_loop tries' run_method url solve_url hdrs
        else ret response
      else ret response
  end.

Definition _request (run_method : Transport) (url : string)
    (solve_url : option string) (hdrs : headers) : M Response.t :=
  _init_client ;>
  s <- get_self ;>
  _request_loop (_max_tries s) run_method url solve_url hdrs.

(** [httpx.AsyncClient.get] and [httpx.AsyncClient.post] *)
Variable httpx_get httpx_post : Transport.

Definition get (url : string) (solve_url : option string) (hdrs : headers)
  : M Response.t :=
  _request httpx_get url solve_url hdrs.

Definition post (url : string) (solve_url : option string) (hdrs : headers)
  : M Response.t :=
  _request httpx_post url solve_url hdrs.

End Client.

(* ===================================================================== *)
(** ** What the tests of the client mean *)
(* ===================================================================== *)

(** The tests on the body, said without the matcher: which slices of the
    body make a title element of a block page. *)
Module Spec.

Import PyStr Re Pattern.

Local Abbreviation T := of_string.

(** white space only *)
Definition Spaces (s : text) : Prop := Forall (fun c => is_space c = true) s.

(** text without an angle bracket *)
Definition NoAngle (s : text) : Prop :=
  Forall (fun c => c <> ">"%char /\ c <> "<"%char) s.

(** [m] is an element [<title>inner</title>], white space allowed inside
    the two tags, with [Inner inner] *)
Definition TitleElement (Inner : text -> Prop) (m : text) : Prop :=
  exists w1 w2 inner w3 w4 w5,
    m = T "<" ++ w1 ++ T "title" ++ w2 ++ T ">" ++ inner ++
        T "<" ++ w3 ++ T "/" ++ w4 ++ T "title" ++ w5 ++ T ">" /\
    Spaces w1 /\ Spaces w2 /\ Spaces w3 /\ Spaces w4 /\ Spaces w5 /\
    Inner inner.

(** the body holds such an element *)
Definition HasTitle (Inner : text -> Prop) (body : text) : Prop :=
  exists pre m post, body = pre ++ m ++ post /\ TitleElement Inner m.

(** "access denied ... cloudflare ...": the title starts with
    "access denied" and white space, and goes on to "cloudflare" *)
Definition AccessDeniedCloudflare (inner : text) : Prop :=
  exists w c t1 t2,
    inner = w ++ T "access denied" ++ [c] ++ t1 ++ T "cloudflare" ++ t2 /\
    Spaces w /\ is_space c = true /\ NoAngle t1 /\ NoAngle t2.

(** "ip banned ...": the title starts with "ip banned" *)
Definition IpBanned (inner : text) : Prop :=
  exists w t, inner = w ++ T "ip banned" ++ t /\ Spaces w /\ NoAngle t.

Definition HardBlock (body : text) : Prop :=
  (Occurs (T "access denied") body /\ HasTitle AccessDeniedCloudflare body)
  \/
  (Occurs (T "ip banned") body /\ Occurs (T "cloudflare") body /\
   HasTitle IpBanned body).

(** the four markers of a challenge page *)
Inductive marker : Type :=
| JustAMoment | AttentionRequired | CaptchaChallenge | DdosGuard.

Definition phrase (k : marker) : string :=
  match k with
  | JustAMoment => "just a moment..."
  | AttentionRequired => "attention required!"
  | CaptchaChallenge => "captcha challenge"
  | DdosGuard => "ddos-guard"
  end.

(** the pattern the client searches inside the title for each marker *)
Definition inner_of (k : marker) : regex :=
  match k with
  | JustAMoment => inner_just_a_moment
  | AttentionRequired => inner_attention_required
  | CaptchaChallenge => inner_captcha_challenge
  | DdosGuard => inner_ddos_guard
  end.

(** the phrase as a title may spell it: for "attention required!" white
    space may stand in front of the exclamation mark *)
Definition Spelled (k : marker) (p : text) : Prop :=
  match k with
  | AttentionRequired =>
      exists w, p = T "attention required" ++ w ++ T "!" /\ Spaces w
  | _ => p = T (phrase k)
  end.

(** the title holds the phrase, with other text around it *)
Definition TitleText (k : marker) (inner : text) : Prop :=
  exists t1 p t2,
    inner = t1 ++ p ++ t2 /\ NoAngle t1 /\ Spelled k p /\ NoAngle t2.

Definition Challenge (body : text) : Prop :=
  exists k : marker, Occurs (T (phrase k)) body /\ HasTitle (TitleText k) body.

(** the lower-cased body *)
Definition body (response : Response.t) : text :=
  lower (T (Response.text response)).

Definition Html (response : Response.t) : Prop :=
  exists rest,
    Response.content_type response = Some ("text/html" +:+ rest).

(** status 403, an HTML content type, a body that is not empty *)
Definition Inspected (response : Response.t) : Prop :=
  Response.status_code response = 403%Z /\ Html response /\
  Response.text response <> EmptyString.

(** The four ways [_request] treats a response. *)
Inductive Classification : Type :=
| OK | HARD_BLOCK | CHALLENGE | UNRELATED_403.

Definition classify (response : Response.t) : Classification :=
  if Block.inspected response then
    if Block.unsolvable (body response) then HARD_BLOCK
    else if Block.solvable (body response) then CHALLENGE
    else UNRELATED_403
  else OK.

(** The three messages of [AsyncClient.Exception], by what they report. *)
Definition ChallengeRetriesExceeded (max_tries : nat) : PyException :=
  Exception ("Can't solve challenge: challenge got " +:+
             str_nat max_tries +:+ " times ... (max tries exceded)").

Definition SolverUnavailable (status_code : Z) : PyException :=
  Exception ("Solver is unavailable: status_code = " +:+ str_int status_code).

Definition SolverProtocolError (url response request : string) : PyException :=
  Exception ("Can't solve challenge: no solution in response for '" +:+
             url +:+ "': " +:+ "response: " +:+ response +:+
             " on request: " +:+ request).

(** A solution cookie with the two keys read by subscript. *)
Definition cookie_complete (c : Solver.solution_cookie) : bool :=
  match Solver.c_name c, Solver.c_value c with
  | Some _, Some _ => true
  | _, _ => false
  end.

(** A solver answer the client can apply: status 200, a solution with a
    user agent and cookies, every cookie with a name and a value. *)
Definition solution_complete (r : Solver.response) : bool :=
  (Solver.status_code r =? 200)%Z &&
  match Solver.json r with
  | Some {| Solver.j_solution :=
              Some {| Solver.userAgent := Some _;
                      Solver.s_cookies := Some cs |} |} =>
      forallb cookie_complete cs
  | _ => false
  end.

(** the key and the stored form of a solution cookie *)
Definition key_of (c : Solver.solution_cookie) : string * string * string :=
  (default EmptyString (Solver.c_name c), default EmptyString (Solver.c_domain c),
   default "/" (Solver.c_path c)).

Definition lookup_key (k : string * string * string) (jar : CookieJar.t)
  : option Cookie.t :=
  let '(name, domain, path) := k in CookieJar.lookup name domain path jar.

Definition stored (k : string * string * string) (value : string) : Cookie.t :=
  let '(name, domain, path) := k in
  {| Cookie.name := name; Cookie.value := Some value;
     Cookie.domain := domain; Cookie.path := path;
     Cookie.port := None; Cookie.secure := false;
     Cookie.expires := None; Cookie.discard := true |}.

(** a dict sent to the solver holds the seven attributes of a cookie *)
Definition snapshot (d : Solver.cookie_dict) (c : Cookie.t) : Prop :=
  Solver.name d = Cookie.name c /\ Solver.value d = Cookie.value c /\
  Solver.domain d = Cookie.domain c /\ Solver.path d = Cookie.path c /\
  Solver.port d = Cookie.port c /\ Solver.secure d = Cookie.secure c /\
  Solver.expires d = Cookie.expires c.

(** the jar of the client, empty while there is no transport client *)
Definition jar_of (s : AsyncClient) : CookieJar.t :=
  match _http_client s with
  | Some c => HttpClient.cookies c
  | None => CookieJar.empty
  end.

(** the jar once the cookies of a solution are set, in order *)
Definition jar_after (cs : list Solver.solution_cookie) (jar : CookieJar.t)
  : CookieJar.t :=
  fold_left
    (fun j c =>
       match Solver.c_name c, Solver.c_value c with
       | Some name, Some value =>
           CookieJar.set name value (default EmptyString (Solver.c_domain c))
                         (default "/" (Solver.c_path c)) j
       | _, _ => j
       end) cs jar.

End Spec.

Section Observations.

Context {World : Type}.

Inductive kind : Type := KRequest | KSolverPost.

Definition kind_of (e : Event) : kind :=
  match e with
  | EvRequest _ _ _ => KRequest
  | EvSolverPost _ _ _ => KSolverPost
  end.

(** [n] attempts, each followed by one call of the solver *)
Fixpoint rounds (n : nat) : list kind :=
  match n with
  | O => []
  | S n' => KRequest :: KSolverPost :: rounds n'
  end.

Definition is_request (e : Event) : bool :=
  match e with EvRequest _ _ _ => true | EvSolverPost _ _ _ => false end.

Definition is_solver_post (e : Event) : bool :=
  match e with EvRequest _ _ _ => false | EvSolverPost _ _ _ => true end.

Definition attempts (tr : list Event) : nat :=
  length (List.filter is_request tr).

Definition solver_calls (tr : list Event) : nat :=
  length (List.filter is_solver_post tr).

(** an attempt that met a challenge page *)
Definition challenged (e : Event) : Prop :=
  match e with
  | EvRequest _ _ r =>
      exists response, r = inr response /\
                       Spec.classify response = Spec.CHALLENGE
  | EvSolverPost _ _ _ => True
  end.

(** a call of the solver that brought a solution the client can apply *)
Definition solved (e : Event) : Prop :=
  match e with
  | EvRequest _ _ _ => True
  | EvSolverPost _ _ r =>
      exists response, r = inr response /\
                       Spec.solution_complete response = true
  end.

(** the two as tests *)
Definition met_challenge (e : Event) : bool :=
  match e with
  | EvRequest _ _ (inr response) =>
      match Spec.classify response with
      | Spec.CHALLENGE => true
      | _ => false
      end
  | EvRequest _ _ (inl _) => false
  | EvSolverPost _ _ _ => true
  end.

Definition brought_solution (e : Event) : bool :=
  match e with
  | EvRequest _ _ _ => true
  | EvSolverPost _ _ (inr response) => Spec.solution_complete response
  | EvSolverPost _ _ (inl _) => false
  end.

(** the requests posted to the solver, in order *)
Fixpoint solver_requests (tr : list Event) : list Solver.request :=
  match tr with
  | [] => []
  | EvRequest _ _ _ :: tr' => solver_requests tr'
  | EvSolverPost _ rq _ :: tr' => rq :: solver_requests tr'
  end.

(** the machine once the transport has answered *)
Definition answered (m : @Machine World) (w : World) (c : HttpClient.t)
  : Machine :=
  {| world := w; self := with_http_client (Some c) (self m) |}.

(** the transport client a call goes through: the one the client has, or
    else the one [_init_client] makes *)
Definition client_of (httpx_AsyncClient : list PyValue -> Kwargs -> HttpClient.t)
    (s : AsyncClient) : HttpClient.t :=
  default (httpx_AsyncClient (_args s) (_kwargs s)) (_http_client s).

(** the client once [_init_client] has run *)
Definition initialised
    (httpx_AsyncClient : list PyValue -> Kwargs -> HttpClient.t)
    (m : @Machine World) : Machine :=
  match _http_client (self m) with
  | Some _ => m
  | None =>
      {| world := world m;
         self := with_http_client
                   (Some (httpx_AsyncClient (_args (self m))
                                            (_kwargs (self m))))
                   (self m) |}
  end.

(** two states of the client with the same configuration *)
Definition same_config (m m' : @Machine World) : Prop :=
  _solver_url (self m') = _solver_url (self m) /\
  _kwargs (self m') = _kwargs (self m) /\
  _max_tries (self m') = _max_tries (self m).

(** the user agent an answer of the solver brings, if it brings one *)
Definition reported_user_agent (r : PyException + Solver.response)
  : option string :=
  match r with
  | inl _ => None
  | inr sr =>
      if (Solver.status_code sr =? 200)%Z then
        match Solver.json sr with
        | Some {| Solver.j_solution := Some sol |} => Solver.userAgent sol
        | _ => None
        end
      else None
  end.

(** the user agent of the session after the events [tr], from [ua] *)
Fixpoint user_agent_after (tr : list Event) (ua : string) : string :=
  match tr with
  | [] => ua
  | EvRequest _ _ _ :: tr' => user_agent_after tr' ua
  | EvSolverPost _ _ r :: tr' =>
      user_agent_after tr' (default ua (reported_user_agent r))
  end.

End Observations.

(* ===================================================================== *)
(** ** Scenarios *)
(* ===================================================================== *)

(** Small worlds to run the client in: the world counts the calls of the
    transport. *)
Module Scenario.

Definition html : option string := Some "text/html; charset=UTF-8".

Definition challenge_page : Response.t :=
  {| Response.status_code := 403; Response.content_type := html;
     Response.text :=
       "<html><head><title>Just a moment...</title></head></html>" |}.

Definition denied_page : Response.t :=
  {| Response.status_code := 403; Response.content_type := html;
     Response.text :=
       "<html><head><title>Access denied | example.com used Cloudflare to restrict access</title></head></html>" |}.

Definition forbidden_page : Response.t :=
  {| Response.status_code := 403; Response.content_type := html;
     Response.text := "<html><head><title>403 Forbidden</title></head></html>" |}.

Definition ok_page : Response.t :=
  {| Response.status_code := 200; Response.content_type := html;
     Response.text := "<html><body>hello</body></html>" |}.

(** a site that always answers the same page *)
Definition always (page : Response.t) : @Transport nat :=
  fun w c _ _ => (S w, c, inr page).

(** a site that answers a challenge first and the page afterwards *)
Definition challenge_once : @Transport nat :=
  fun w c _ _ => (S w, c, inr (if Nat.eqb w 0 then challenge_page else ok_page)).

Definition solver (answer : Solver.response)
  : nat -> string -> Solver.request -> nat * (PyException + Solver.response) :=
  fun w _ _ => (w, inr answer).

(** a solver that answers [first] to the solve after the first attempt
    and [later] afterwards *)
Definition solver_then (first later : Solver.response)
  : nat -> string -> Solver.request -> nat * (PyException + Solver.response) :=
  fun w _ _ => (w, inr (if Nat.eqb w 1 then first else later)).

Definition clearance : Solver.solution_cookie :=
  {| Solver.c_name := Some "cf_clearance"; Solver.c_value := Some "v1";
     Solver.c_domain := Some "example.com"; Solver.c_path := Some "/" |}.

Definition session : Solver.solution_cookie :=
  {| Solver.c_name := Some "sid"; Solver.c_value := Some "s1";
     Solver.c_domain := None; Solver.c_path := None |}.

(** the solver solves: a user agent and two cookies *)
Definition solved : Solver.response :=
  {| Solver.status_code := 200;
     Solver.json :=
       Some {| Solver.j_solution :=
                 Some {| Solver.userAgent := Some "UA2";
                         Solver.s_cookies := Some [clearance; session] |} |} |}.

(** the solver is down *)
Definition down : Solver.response :=
  {| Solver.status_code := 500; Solver.json := None |}.

(** the solver answers 200 and an object without ["solution"] *)
Definition no_solution : Solver.response :=
  {| Solver.status_code := 200;
     Solver.json := Some {| Solver.j_solution := None |} |}.

(** the solver answers a solution without ["cookies"] *)
Definition no_cookies : Solver.response :=
  {| Solver.status_code := 200;
     Solver.json :=
       Some {| Solver.j_solution :=
                 Some {| Solver.userAgent := Some "UA2";
                         Solver.s_cookies := None |} |} |}.

(** pages whose title is spelled loosely, and one whose title holds markup *)
Definition loose_title : string :=
  "<HTML>< Title >  Attention Required  ! | Cloudflare< / TITLE ></HTML>".

Definition markup_title : string :=
  "<html><title>Attention <b>Required!</b></title>attention required!</html>".

Definition dumps_response (j : Solver.response_json) : string :=
  match Solver.j_solution j with
  | None => "{}"
  | Some _ => "{solution: ...}"
  end.

Definition dumps_request (rq : Solver.request) : string :=
  "{maxTimeout: 60000, url: " +:+ Solver.url rq +:+ ", ...}".

Definition url : string := "https://example.com/a".

(** a constructor of the transport client: the jar starts with the
    cookies of the keyword [cookies], each under the empty domain and the
    path "/" *)
Definition new_client : list PyValue -> Kwargs -> HttpClient.t :=
  fun _ kwargs =>
    {| HttpClient.cookies :=
         match kw_others kwargs !! "cookies" with
         | Some (PyDict items) =>
             fold_left (fun jar item =>
                          CookieJar.set item.1 item.2 EmptyString "/" jar)
                       items CookieJar.empty
         | _ => CookieJar.empty
         end |}.

Definition client : AsyncClient :=
  __init__ "http://solver:8080" []
           {| kw_proxy := Some "http://proxy:3128"; kw_others := ∅ |}.

Definition start : @Machine nat := {| world := 0; self := client |}.

(** a call of the client in such a world *)
Definition request
    (answer : nat -> string -> Solver.request ->
              nat * (PyException + Solver.response))
    (site : @Transport nat) (solve_url : option string) (hdrs : headers)
  : @M nat Response.t :=
  _request new_client answer dumps_response dumps_request site url solve_url
           hdrs.

Definition solve
    (answer : nat -> string -> Solver.request ->
              nat * (PyException + Solver.response))
  : @M nat unit :=
  _solve_challenge answer dumps_response dumps_request url.

Definition endpoint : string := "http://solver:8080/get_cookies".

(** the request the fresh client posts for [target] *)
Definition first_request (target : string) : Solver.request :=
  {| Solver.maxTimeout := 60000; Solver.url := target;
     Solver.cookies := [];
     Solver.proxy := Some "http://proxy:3128" |}.

(** a client that holds one cookie already *)
Definition kept : Cookie.t :=
  {| Cookie.name := "lang"; Cookie.value := Some "en";
     Cookie.domain := "example.com"; Cookie.path := "/";
     Cookie.port := None; Cookie.secure := true;
     Cookie.expires := Some 1893456000%Z; Cookie.discard := false |}.

Definition open_client : AsyncClient :=
  with_http_client
    (Some {| HttpClient.cookies := CookieJar.set_cookie kept CookieJar.empty |})
    client.

Definition opened : @Machine nat := {| world := 0; self := open_client |}.

(** the request the client with one cookie posts *)
Definition kept_request : Solver.request :=
  {| Solver.maxTimeout := 60000; Solver.url := url;
     Solver.cookies := [send_cookie kept];
     Solver.proxy := Some "http://proxy:3128" |}.

Definition caller_headers : headers :=
  <["user-agent" := "curl/8.0"]> (<["accept" := "text/html"]> ∅).

End Scenario.

(* ===================================================================== *)
(** ** The scope of the client *)
(* ===================================================================== *)

Section Scope.

Context {World : Type}.

Variable httpx_AsyncClient : list PyValue -> Kwargs -> HttpClient.t.

(** [httpx.AsyncClient.__aenter__] and [__aexit__] of the transport client:
    they open and close its connections and may raise. The value of
    [__aenter__] is dropped by the client, the value of [__aexit__] is
    handed on. *)
Variable httpx_aenter : World -> HttpClient.t -> World * (PyException + unit).
Variable httpx_aexit : World -> HttpClient.t -> World * (PyException + PyValue).

(** [await self._http_client.<method>(...)] *)
Definition await_http_client {A : Type} (attr : string)
    (method : World -> HttpClient.t -> World * (PyException + A))
  : @M World A :=
  fun m =>
    match _http_client (self m) with
    | None =>
        {| final := m; trace := [];
           result := inl (AttributeError (no_attribute attr)) |}
    | Some c =>
        let '(w, r) := method (world m) c in
        {| final := {| world := w; self := self m |}; trace := [];
           result := r |}
    end.

(** [__aenter__]: the client of an earlier scope is dropped, a new one is
    made and entered. *)
Definition __aenter__ : @M World unit :=
  bind get_self (fun s =>
  bind (put_self (with_http_client None s)) (fun _ =>
  bind (_init_client httpx_AsyncClient) (fun _ =>
  await_http_client "__aenter__" httpx_aenter))).

(** [__aexit__]: the value returned is that of the transport client, or
    [False] when there is no transport client. *)
Definition __aexit__ : @M World PyValue :=
  bind get_self (fun s =>
  match _http_client s with
  | Some _ =>
      bind (await_http_client "__aexit__" httpx_aexit) (fun ret_ =>
      bind get_self (fun s' =>
      bind (put_self (with_http_client None s')) (fun _ =>
      ret ret_)))
  | None => ret (PyBool false)
  end).

(** the property [http_client] *)
Definition http_client : @M World (option HttpClient.t) :=
  bind get_self (fun s => ret (_http_client s)).

End Scope.

(* ===================================================================== *)
(** ** More to say about runs and jars *)
(* ===================================================================== *)

Module Further.

Import Spec.

(** two keys of the jar are the same *)
Definition key_eqb (k k' : string * string * string) : bool :=
  let '(name, domain, path) := k in
  let '(name', domain', path') := k' in
  String.eqb name name' && String.eqb domain domain' && String.eqb path path'.

(** the value of the last cookie of a solution that has the key [k] *)
Fixpoint last_value (k : string * string * string)
    (cs : list Solver.solution_cookie) : option string :=
  match cs with
  | [] => None
  | c :: cs' =>
      match last_value k cs' with
      | Some value => Some value
      | None => if key_eqb (key_of c) k then Solver.c_value c else None
      end
  end.

(** what the jar holds under [k] once the cookies [cs] are set *)
Definition after_solution (k : string * string * string)
    (cs : list Solver.solution_cookie) (before : option Cookie.t)
  : option Cookie.t :=
  match last_value k cs with
  | Some value => Some (stored k value)
  | None => before
  end.

(** the key whose subscript raises on a cookie that is not complete *)
Definition missing_key (c : Solver.solution_cookie) : string :=
  match Solver.c_name c with
  | None => "name"
  | Some _ => "value"
  end.

(** a response that [_request] hands back: neither block was found *)
Definition passes (response : Response.t) : Prop :=
  classify response = OK \/ classify response = UNRELATED_403.

(** the same page but for its body *)
Definition with_text (text : string) (response : Response.t) : Response.t :=
  {| Response.status_code := Response.status_code response;
     Response.content_type := Response.content_type response;
     Response.text := text |}.

End Further.

(** More small worlds. *)
Module Cases.

(** the challenge page in capitals *)
Definition shouting_page : Response.t :=
  Further.with_text
    "<HTML><HEAD><TITLE>JUST A MOMENT...</TITLE></HEAD></HTML>"
    Scenario.challenge_page.

(** a transport that raises *)
Definition broken : @Transport nat :=
  fun w c _ _ => (S w, c, inl (TransportError "ConnectTimeout")).

(** a solver that cannot be reached *)
Definition unreachable
  : nat -> string -> Solver.request -> nat * (PyException + Solver.response) :=
  fun w _ _ => (w, inl (TransportError "ConnectError")).

(** the solver answers 200 and a body that is not JSON *)
Definition not_json : Solver.response :=
  {| Solver.status_code := 200; Solver.json := None |}.

(** a solution that names one key twice, and a cookie without a name after
    a complete one *)
Definition twice : Solver.response :=
  {| Solver.status_code := 200;
     Solver.json :=
       Some {| Solver.j_solution :=
                 Some {| Solver.userAgent := Some "UA3";
                         Solver.s_cookies :=
                           Some [Scenario.clearance;
                                 {| Solver.c_name := Some "cf_clearance";
                                    Solver.c_value := Some "v2";
                                    Solver.c_domain := Some "example.com";
                                    Solver.c_path := None |}] |} |} |}.

Definition nameless : Solver.solution_cookie :=
  {| Solver.c_name := None; Solver.c_value := Some "x";
     Solver.c_domain := None; Solver.c_path := None |}.

Definition half : Solver.response :=
  {| Solver.status_code := 200;
     Solver.json :=
       Some {| Solver.j_solution :=
                 Some {| Solver.userAgent := Some "UA3";
                         Solver.s_cookies :=
                           Some [Scenario.clearance; nameless;
                                 Scenario.session] |} |} |}.

(** the transport client enters without an error *)
Definition enters : nat -> HttpClient.t -> nat * (PyException + unit) :=
  fun w _ => (w, inr tt).

(** the transport client closes and returns [None] *)
Definition closes : nat -> HttpClient.t -> nat * (PyException + PyValue) :=
  fun w _ => (w, inr PyNone).

(** the transport client fails to close *)
Definition stuck : nat -> HttpClient.t -> nat * (PyException + PyValue) :=
  fun w _ => (w, inl (TransportError "CloseError")).

(** a client made with a keyword [cookies] *)
Definition seeded : @Machine nat :=
  {| world := 0;
     self := __init__ "http://solver:8080" []
               {| kw_proxy := None;
                  kw_others := {[ "cookies" := PyDict [("lang", "en")] ]} |} |}.

(** the same client once it has a transport client and went through a
    solve *)
Definition seeded_solved : @Machine nat :=
  final (Scenario.solve (Scenario.solver Scenario.solved)
           (initialised Scenario.new_client seeded)).

(** a site that answers the page to a client whose jar holds the cookie,
    and [closed] to the others *)
Definition behind (name domain path : string) (closed : Response.t)
  : @Transport nat :=
  fun w c _ _ =>
    (S w, c,
     inr (match CookieJar.lookup name domain path (HttpClient.cookies c) with
          | Some _ => Scenario.ok_page
          | None => closed
          end)).

(** a client that went through a solve *)
Definition solved_client : @Machine nat :=
  final (Scenario.solve (Scenario.solver Scenario.solved) Scenario.opened).

End Cases.

(* ===================================================================== *)
(** ** Facts: strings and patterns *)
(* ===================================================================== *)

Module PyStrFacts.

Import PyStr.

Lemma startswith_spec p s :
  startswith p s = true <-> exists post, s = p ++ post.
Proof.
  revert s. induction p as [|a p IH]; intros s; simpl.
  - split; [intros _; now exists s | reflexivity].
  - destruct s as [|b s].
    + split; [discriminate | intros [post H]; discriminate].
    + rewrite andb_true_iff, IH, Ascii.eqb_eq. split.
      * intros [-> [post ->]]. now exists post.
      * intros [post H]. injection H as -> ->. split; [reflexivity | now exists post].
Qed.

Lemma contains_spec needle hay :
  contains needle hay = true <-> Occurs needle hay.
Proof.
  unfold Occurs. induction hay as [|c hay IH].
  - simpl. rewrite orb_false_r, startswith_spec. split.
    + intros [post H]. now exists [], post.
    + intros [pre [post H]]. destruct pre; [now exists post | discriminate].
  - cbn [contains]. rewrite orb_true_iff, startswith_spec, IH. split.
    + intros [[post H] | [pre [post H]]].
      * now exists [], post.
      * exists (c :: pre), post. now rewrite H.
    + intros [[|c' pre] [post H]].
      * left. now exists post.
      * right. injection H as _ H. now exists pre, post.
Qed.

Lemma Mentions_middle pre part post : Mentions part (pre +:+ part +:+ post).
Proof. now exists pre, post. Qed.

Lemma of_string_app (a b : string) :
  of_string (a +:+ b) = of_string a ++ of_string b.
Proof.
  unfold of_string. induction a as [|c a IH]; simpl; [reflexivity|].
  now rewrite IH.
Qed.

Lemma append_assoc (a b c : string) : (a +:+ b) +:+ c = a +:+ (b +:+ c).
Proof.
  induction a as [|x a IH]; [reflexivity|].
  change (String x ((a +:+ b) +:+ c) = String x (a +:+ (b +:+ c))).
  now f_equal.
Qed.

Lemma append_nil_r (a : string) : a +:+ EmptyString = a.
Proof.
  induction a as [|x a IH]; [reflexivity|].
  change (String x (a +:+ EmptyString) = String x a). now f_equal.
Qed.

Lemma of_string_inj (a b : string) : of_string a = of_string b -> a = b.
Proof.
  unfold of_string. intros H.
  rewrite <- (string_of_list_ascii_of_string a),
          <- (string_of_list_ascii_of_string b).
  now rewrite H.
Qed.

End PyStrFacts.

Module ReFacts.

Import PyStr Re.

Lemma matches_Void s : ~ matches Void s.
Proof. inversion 1. Qed.

Lemma matches_Eps s : matches Eps s <-> s = [].
Proof. split; [inversion 1; reflexivity | intros ->; constructor]. Qed.

Lemma matches_Class p s :
  matches (Class p) s <-> exists c, s = [c] /\ p c = true.
Proof.
  split.
  - inversion 1; subst. eauto.
  - intros [c [-> H]]. now constructor.
Qed.

Lemma matches_Cat r1 r2 s :
  matches (Cat r1 r2) s <->
  exists s1 s2, s = s1 ++ s2 /\ matches r1 s1 /\ matches r2 s2.
Proof.
  split.
  - inversion 1; subst. eauto.
  - intros [s1 [s2 [-> [H1 H2]]]]. now constructor.
Qed.

Lemma matches_Alt r1 r2 s :
  matches (Alt r1 r2) s <-> matches r1 s \/ matches r2 s.
Proof.
  split.
  - inversion 1; subst; auto.
  - intros [H | H]; [now apply MAltL | now apply MAltR].
Qed.

Lemma nullable_spec r : nullable r = true <-> matches r [].
Proof.
  induction r as [| |p|r1 IH1 r2 IH2|r1 IH1 r2 IH2|r IH]; simpl.
  - split; [discriminate | intros H; destruct (matches_Void H)].
  - split; [constructor | reflexivity].
  - split; [discriminate | inversion 1].
  - rewrite andb_true_iff, IH1, IH2, matches_Cat. split.
    + intros [H1 H2]. now exists [], [].
    + intros [s1 [s2 [E [H1 H2]]]]. symmetry in E.
      apply app_eq_nil in E as [-> ->]. auto.
  - now rewrite orb_true_iff, IH1, IH2, matches_Alt.
  - split; [constructor | reflexivity].
Qed.

Lemma cat_spec r1 r2 s : matches (cat r1 r2) s <-> matches (Cat r1 r2) s.
Proof.
  assert (V1 : forall r, matches Void s <-> matches (Cat Void r) s).
  { intros r. rewrite matches_Cat. split.
    - intros H. destruct (matches_Void H).
    - intros [s1 [s2 [_ [H _]]]]. destruct (matches_Void H). }
  assert (V2 : forall r, matches Void s <-> matches (Cat r Void) s).
  { intros r. rewrite matches_Cat. split.
    - intros H. destruct (matches_Void H).
    - intros [s1 [s2 [_ [_ H]]]]. destruct (matches_Void H). }
  assert (E : forall r, matches r s <-> matches (Cat Eps r) s).
  { intros r. rewrite matches_Cat. split.
    - intros H. exists [], s. repeat split; [constructor | assumption].
    - intros [s1 [s2 [-> [H1 H2]]]]. apply matches_Eps in H1 as ->.
      assumption. }
  destruct r1; simpl; try apply V1;
    destruct r2; simpl; try apply V2; try apply E; reflexivity.
Qed.

Lemma alt_spec r1 r2 s : matches (alt r1 r2) s <-> matches (Alt r1 r2) s.
Proof.
  rewrite matches_Alt.
  destruct r1; simpl;
    try (split; [now right | intros [H | H];
                             [destruct (matches_Void H) | assumption]]);
    destruct r2; simpl; try apply matches_Alt;
    (split; [now left | intros [H | H];
                        [assumption | destruct (matches_Void H)]]).
Qed.

(** a non-empty word of a star starts with a non-empty word of its body *)
Lemma matches_Star_cons r c s :
  matches (Star r) (c :: s) ->
  exists s1 s2, s = s1 ++ s2 /\ matches r (c :: s1) /\ matches (Star r) s2.
Proof.
  intros H. remember (Star r) as r' eqn:Er. remember (c :: s) as w eqn:Ew.
  revert s Ew. induction H as [| | | | | |r0 s1 s2 H1 _ H2 IH2];
    intros t Ew; try discriminate.
  injection Er as ->. destruct s1 as [|c1 s1].
  - simpl in Ew. now apply IH2.
  - simpl in Ew. injection Ew as -> <-. now exists s1, s2.
Qed.

Lemma deriv_spec c r s : matches (deriv c r) s <-> matches r (c :: s).
Proof.
  revert s.
  induction r as [| |p|r1 IH1 r2 IH2|r1 IH1 r2 IH2|r IH]; intros s; simpl.
  - split; intros H; destruct (matches_Void H).
  - split; intros H; [destruct (matches_Void H) | inversion H].
  - rewrite matches_Class. destruct (p c) eqn:Hp.
    + rewrite matches_Eps. split.
      * intros ->. now exists c.
      * intros [c' [E _]]. now injection E.
    + split; [intros H; destruct (matches_Void H)|].
      intros [c' [E Hc']]. injection E as <- _. congruence.
  - assert (C : matches (cat (deriv c r1) r2) s <->
                exists s1 s2, s = s1 ++ s2 /\ matches r1 (c :: s1)
                              /\ matches r2 s2).
    { rewrite cat_spec, matches_Cat. split.
      - intros [s1 [s2 [E [H1 H2]]]]. apply IH1 in H1. eauto.
      - intros [s1 [s2 [E [H1 H2]]]]. apply IH1 in H1. eauto. }
    rewrite matches_Cat. destruct (nullable r1) eqn:N.
    + rewrite alt_spec, matches_Alt, C, IH2. split.
      * intros [[s1 [s2 [-> [H1 H2]]]] | H].
        -- now exists (c :: s1), s2.
        -- apply nullable_spec in N. now exists [], (c :: s).
      * intros [[|c1 s1] [s2 [E [H1 H2]]]]; simpl in E.
        -- right. now rewrite E.
        -- left. injection E as <- ->. eauto.
    + rewrite C. split.
      * intros [s1 [s2 [-> [H1 H2]]]]. now exists (c :: s1), s2.
      * intros [[|c1 s1] [s2 [E [H1 H2]]]]; simpl in E.
        -- apply nullable_spec in H1. congruence.
        -- injection E as <- ->. eauto.
  - now rewrite alt_spec, !matches_Alt, IH1, IH2.
  - rewrite cat_spec, matches_Cat. split.
    + intros [s1 [s2 [-> [H1 H2]]]]. apply IH in H1.
      apply (MStarApp H1 H2).
    + intros H. apply matches_Star_cons in H as [s1 [s2 [-> [H1 H2]]]].
      apply IH in H1. eauto.
Qed.

Lemma fullmatch_spec r s : fullmatch r s = true <-> matches r s.
Proof.
  revert r. induction s as [|c s IH]; intros r; simpl.
  - apply nullable_spec.
  - now rewrite IH, deriv_spec.
Qed.

Lemma matches_any s : matches any s.
Proof.
  induction s as [|c s IH]; [constructor|].
  apply (MStarApp (s1 := [c])); [now constructor | assumption].
Qed.

(** [search] finds a slice in the language of the pattern, and only then *)
Lemma search_spec r s : search r s = true <-> Found r s.
Proof.
  unfold search, Found. rewrite fullmatch_spec, matches_Cat. split.
  - intros [pre [rest [-> [_ H]]]].
    apply matches_Cat in H as [m [post [-> [H _]]]]. eauto.
  - intros [pre [m [post [-> H]]]]. exists pre, (m ++ post).
    repeat split; [apply matches_any|].
    apply matches_Cat. exists m, post. repeat split; [assumption|].
    apply matches_any.
Qed.

Lemma matches_lit w s : matches (lit w) s <-> s = w.
Proof.
  revert s. induction w as [|c w IH]; intros s; simpl.
  - apply matches_Eps.
  - rewrite matches_Cat. split.
    + intros [s1 [s2 [-> [H1 H2]]]]. apply matches_Class in H1 as [c' [-> E]].
      apply Ascii.eqb_eq in E as <-. apply IH in H2 as ->. reflexivity.
    + intros ->. exists [c], w. repeat split.
      * constructor. apply Ascii.eqb_refl.
      * now apply IH.
Qed.

Lemma matches_str w s : matches (str w) s <-> s = of_string w.
Proof. apply matches_lit. Qed.

Lemma matches_Star_Class p s :
  matches (Star (Class p)) s <-> Forall (fun c => p c = true) s.
Proof.
  split.
  - intros H. remember (Star (Class p)) as r eqn:Er.
    induction H as [| | | | | |r0 s1 s2 H1 _ H2 IH2]; try discriminate.
    + constructor.
    + injection Er as ->. apply matches_Class in H1 as [c [-> Hc]].
      simpl. constructor; auto.
  - induction 1 as [|c s Hc _ IH]; [constructor|].
    apply (MStarApp (s1 := [c])); [now constructor | assumption].
Qed.

End ReFacts.

Module BlockFacts.

Import PyStr Re Pattern Spec PyStrFacts ReFacts.

Lemma not_angle_spec c :
  not_angle c = true <-> c <> ">"%char /\ c <> "<"%char.
Proof.
  unfold not_angle.
  rewrite andb_true_iff, !negb_true_iff, <- !not_true_iff_false, !Ascii.eqb_eq.
  reflexivity.
Qed.

Lemma matches_sp s : matches sp s <-> exists c, s = [c] /\ is_space c = true.
Proof. apply matches_Class. Qed.

Lemma matches_ws s : matches ws s <-> Spaces s.
Proof. apply matches_Star_Class. Qed.

Lemma matches_na s : matches na s <-> NoAngle s.
Proof.
  unfold na, NoAngle. rewrite matches_Star_Class. apply Forall_iff.
  intros c. apply not_angle_spec.
Qed.

(** take a match of a sequence apart, piece by piece *)
Ltac pieces :=
  repeat match goal with
    | H : matches (Cat _ _) _ |- _ =>
        apply matches_Cat in H as (? & ? & -> & ? & ?)
    | H : matches (str _) _ |- _ => apply matches_str in H as ->
    | H : matches ws _ |- _ => apply matches_ws in H
    | H : matches na _ |- _ => apply matches_na in H
    | H : matches sp _ |- _ => apply matches_sp in H as (? & -> & ?)
    end.

(** and put one together *)
Ltac assemble :=
  repeat apply MCat;
  try (apply matches_str; reflexivity);
  try (apply matches_ws; assumption);
  try (apply matches_na; assumption);
  try assumption.

Lemma matches_title inner m :
  matches (title inner) m <-> TitleElement (matches inner) m.
Proof.
  unfold title, TitleElement. cbn [seq]. split.
  - intros H. pieces. do 6 eexists. repeat split; eauto.
  - intros (w1 & w2 & i & w3 & w4 & w5 & -> & ? & ? & ? & ? & ? & ?).
    assemble.
Qed.

Lemma HasTitle_iff (P Q : text -> Prop) body :
  (forall i, P i <-> Q i) -> HasTitle P body <-> HasTitle Q body.
Proof.
  intros E. unfold HasTitle, TitleElement. split;
    intros (pre & m & post & -> & w1 & w2 & i & w3 & w4 & w5 & -> & H);
    exists pre; eexists; exists post; (split; [reflexivity|]);
    exists w1, w2, i, w3, w4, w5; (split; [reflexivity|]);
    intuition; now apply E.
Qed.

Lemma search_title inner body :
  search (title inner) body = true <-> HasTitle (matches inner) body.
Proof.
  rewrite search_spec. unfold Found, HasTitle. split;
    intros (pre & m & post & -> & H); exists pre, m, post;
    (split; [reflexivity | now apply matches_title]).
Qed.

Lemma matches_inner_access_denied i :
  matches inner_access_denied i <-> AccessDeniedCloudflare i.
Proof.
  unfold inner_access_denied, AccessDeniedCloudflare. cbn [seq]. split.
  - intros H. pieces. do 4 eexists. repeat split; eauto.
  - intros (w & c & t1 & t2 & -> & ? & ? & ? & ?). assemble.
    apply matches_sp. eauto.
Qed.

Lemma matches_inner_ip_banned i : matches inner_ip_banned i <-> IpBanned i.
Proof.
  unfold inner_ip_banned, IpBanned. cbn [seq]. split.
  - intros H. pieces. do 2 eexists. repeat split; eauto.
  - intros (w & t & -> & ? & ?). assemble.
Qed.

Lemma matches_inner_of k i : matches (inner_of k) i <-> TitleText k i.
Proof.
  unfold TitleText. destruct k; cbn [inner_of Spelled phrase];
    [unfold inner_just_a_moment | unfold inner_attention_required
    | unfold inner_captcha_challenge | unfold inner_ddos_guard];
    cbn [seq]; split.
  - intros H. pieces. do 3 eexists. repeat split; eauto.
  - intros (t1 & p & t2 & -> & ? & -> & ?). assemble.
  - intros H. pieces.
    match goal with
    | |- exists t1 p t2, ?a ++ ?b ++ ?w ++ ?e ++ ?t = _ /\ _ =>
        exists a, (b ++ w ++ e), t
    end.
    rewrite <- !app_assoc. repeat split; eauto.
  - intros (t1 & p & t2 & -> & ? & (w & -> & ?) & ?).
    rewrite <- !app_assoc. assemble.
  - intros H. pieces. do 3 eexists. repeat split; eauto.
  - intros (t1 & p & t2 & -> & ? & -> & ?). assemble.
  - intros H. pieces. do 3 eexists. repeat split; eauto.
  - intros (t1 & p & t2 & -> & ? & -> & ?). assemble.
Qed.

Lemma has_spec phrase body :
  Block.has phrase body = true <-> Occurs (of_string phrase) body.
Proof. apply contains_spec. Qed.

(** the first test of [_request] holds on the hard-block pages *)
Lemma unsolvable_spec body :
  Block.unsolvable body = true <-> HardBlock body.
Proof.
  unfold Block.unsolvable, HardBlock, re_access_denied, re_ip_banned.
  rewrite orb_true_iff, !andb_true_iff, !has_spec, !search_title.
  rewrite (HasTitle_iff _ _ body matches_inner_access_denied).
  rewrite (HasTitle_iff _ _ body matches_inner_ip_banned).
  tauto.
Qed.

(** the second test of [_request] holds on the challenge pages *)
Lemma solvable_spec body :
  Block.solvable body = true <-> Challenge body.
Proof.
  unfold Block.solvable, Challenge, re_just_a_moment, re_attention_required,
    re_captcha_challenge, re_ddos_guard.
  rewrite !orb_true_iff, !andb_true_iff, !has_spec, !search_title.
  rewrite (HasTitle_iff _ _ body (matches_inner_of JustAMoment)).
  rewrite (HasTitle_iff _ _ body (matches_inner_of AttentionRequired)).
  rewrite (HasTitle_iff _ _ body (matches_inner_of CaptchaChallenge)).
  rewrite (HasTitle_iff _ _ body (matches_inner_of DdosGuard)).
  split.
  - intros [[[H | H] | H] | H];
      [exists JustAMoment | exists AttentionRequired
      | exists CaptchaChallenge | exists DdosGuard]; exact H.
  - intros [[] H]; cbn [phrase] in H; tauto.
Qed.

Lemma inspected_spec response :
  Block.inspected response = true <-> Inspected response.
Proof.
  unfold Block.inspected, Inspected, Html.
  rewrite !andb_true_iff, Z.eqb_eq, negb_true_iff, String.eqb_neq.
  rewrite startswith_spec. split.
  - intros [[H1 [post H2]] H3]. repeat split; try assumption.
    destruct (Response.content_type response) as [ct|]; [|discriminate].
    exists (string_of_list_ascii post). f_equal. apply of_string_inj.
    rewrite of_string_app. change (default EmptyString (Some ct)) with ct in H2.
    rewrite H2. f_equal.
    unfold of_string. now rewrite list_ascii_of_string_of_list_ascii.
  - intros [H1 [[rest H2] H3]]. repeat split; try assumption.
    exists (of_string rest). rewrite H2.
    change (default EmptyString (Some ("text/html" +:+ rest)))
      with ("text/html" +:+ rest).
    apply of_string_app.
Qed.

End BlockFacts.

(* ===================================================================== *)
(** ** Facts: the cookie jar *)
(* ===================================================================== *)

Module JarFacts.

Import Spec.

Lemma get_set_eq {V} k (v : V) d : PyDict.get k (PyDict.set k v d) = Some v.
Proof.
  induction d as [|[k' v'] d IH]; simpl.
  - now rewrite String.eqb_refl.
  - destruct (String.eqb k k') eqn:E; simpl.
    + now rewrite String.eqb_refl.
    + now rewrite E.
Qed.

Lemma get_set_ne {V} k k' (v : V) d :
  k <> k' -> PyDict.get k' (PyDict.set k v d) = PyDict.get k' d.
Proof.
  intros N. induction d as [|[k0 v0] d IH]; simpl.
  - apply String.eqb_neq in N. rewrite String.eqb_sym in N. now rewrite N.
  - destruct (String.eqb k k0) eqn:E; simpl.
    + apply String.eqb_eq in E as <-.
      apply String.eqb_neq in N. rewrite String.eqb_sym in N. now rewrite N.
    + now rewrite IH.
Qed.

Lemma get_In {V} k (v : V) d : PyDict.get k d = Some v -> In v (PyDict.values d).
Proof.
  induction d as [|[k' v'] d IH]; simpl; [discriminate|].
  destruct (String.eqb k k'); [intros [= ->]; now left | auto].
Qed.

(** a cookie is found under its own key once it is set *)
Lemma lookup_set_cookie_eq c jar :
  CookieJar.lookup (Cookie.name c) (Cookie.domain c) (Cookie.path c)
                   (CookieJar.set_cookie c jar) = Some c.
Proof.
  unfold CookieJar.lookup, CookieJar.set_cookie.
  now rewrite !get_set_eq.
Qed.

(** and the other keys keep what they had *)
Lemma lookup_set_cookie_ne c jar name domain path :
  (Cookie.name c, Cookie.domain c, Cookie.path c) <> (name, domain, path) ->
  CookieJar.lookup name domain path (CookieJar.set_cookie c jar) =
  CookieJar.lookup name domain path jar.
Proof.
  intros N. unfold CookieJar.lookup, CookieJar.set_cookie.
  destruct (String.eqb (Cookie.domain c) domain) eqn:Ed.
  - apply String.eqb_eq in Ed. rewrite <- Ed, get_set_eq.
    destruct (String.eqb (Cookie.path c) path) eqn:Ep.
    + apply String.eqb_eq in Ep. rewrite <- Ep, get_set_eq.
      assert (Cookie.name c <> name) by congruence.
      rewrite get_set_ne by assumption.
      destruct (PyDict.get (Cookie.domain c) jar) as [c2|]; simpl;
        [destruct (PyDict.get (Cookie.path c) c2); reflexivity | reflexivity].
    + apply String.eqb_neq in Ep. rewrite get_set_ne by assumption.
      destruct (PyDict.get (Cookie.domain c) jar) as [c2|]; reflexivity.
  - apply String.eqb_neq in Ed. now rewrite get_set_ne.
Qed.

(** iterating the jar meets every cookie stored in it *)
Lemma lookup_In_iter name domain path jar c :
  CookieJar.lookup name domain path jar = Some c -> In c (CookieJar.iter jar).
Proof.
  unfold CookieJar.lookup, CookieJar.iter. intros H.
  destruct (PyDict.get domain jar) as [c2|] eqn:E2; [|discriminate].
  destruct (PyDict.get path c2) as [c3|] eqn:E3; [|discriminate].
  apply in_flat_map. exists c2. split; [eapply get_In; eauto|].
  apply in_flat_map. exists c3. split; eapply get_In; eauto.
Qed.

Lemma lookup_key_set k value jar :
  lookup_key k (CookieJar.set (k.1.1) value (k.1.2) (k.2) jar) =
  Some (stored k value).
Proof.
  destruct k as [[name domain] path]. unfold lookup_key, CookieJar.set.
  cbn [fst snd]. apply (lookup_set_cookie_eq (stored (name, domain, path) value)).
Qed.

Lemma lookup_key_set_ne k k' value jar :
  k <> k' ->
  lookup_key k' (CookieJar.set (k.1.1) value (k.1.2) (k.2) jar) =
  lookup_key k' jar.
Proof.
  destruct k as [[name domain] path], k' as [[name' domain'] path'].
  intros N. unfold lookup_key, CookieJar.set. cbn [fst snd].
  now apply lookup_set_cookie_ne.
Qed.

(** keys that no cookie of the solution has keep their cookie *)
Lemma jar_after_other cs jar k :
  (forall c, In c cs -> key_of c <> k) ->
  lookup_key k (jar_after cs jar) = lookup_key k jar.
Proof.
  revert jar. induction cs as [|c cs IH]; intros jar H; [reflexivity|].
  unfold jar_after in *. cbn [fold_left]. rewrite IH.
  - destruct (Solver.c_name c) as [name|] eqn:En; [|reflexivity].
    destruct (Solver.c_value c) as [value|]; [|reflexivity].
    assert (N : key_of c <> k) by (apply H; now left).
    unfold key_of in N. rewrite En in N.
    apply (lookup_key_set_ne (k := (name, _, _)) value jar N).
  - intros c' Hc'. apply H. now right.
Qed.

(** the dicts sent to the solver are the cookies, one for one *)
Lemma send_cookies_snapshot (cs : list Cookie.t) :
  Forall2 snapshot (map send_cookie cs) cs.
Proof.
  induction cs as [|c cs IH]; constructor; [now unfold snapshot | exact IH].
Qed.

Lemma key_of_dec (k k' : string * string * string) : {k = k'} + {k <> k'}.
Proof. repeat decide equality; apply string_dec. Defined.

(** every cookie of the solution is found under its key, with the value
    of a cookie of the solution that has this key *)
Lemma jar_after_present cs jar c :
  forallb cookie_complete cs = true -> In c cs ->
  exists c' value,
    In c' cs /\ key_of c' = key_of c /\ Solver.c_value c' = Some value /\
    lookup_key (key_of c) (jar_after cs jar) = Some (stored (key_of c) value).
Proof.
  revert jar c.
  induction cs as [|c0 cs IH]; intros jar c Hall Hin; [destruct Hin|].
  cbn [forallb] in Hall. apply andb_true_iff in Hall as [H0 Hall].
  destruct (existsb (fun c' => if key_of_dec (key_of c') (key_of c)
                               then true else false) cs) eqn:Ex.
  - apply existsb_exists in Ex as [c1 [Hc1 Hk]].
    destruct (key_of_dec (key_of c1) (key_of c)) as [Ek|]; [|discriminate].
    destruct (IH (jar_after [c0] jar) c1 Hall Hc1)
      as (c' & value & Hc' & Ek' & Hv & Hl).
    exists c', value. repeat split; [now right | congruence | assumption |].
    rewrite <- Ek. exact Hl.
  - assert (Hno : forall c', In c' cs -> key_of c' <> key_of c).
    { intros c' Hc' Ek.
      assert (existsb (fun c' => if key_of_dec (key_of c') (key_of c)
                                 then true else false) cs = true).
      { apply existsb_exists. exists c'. split; [assumption|].
        now destruct (key_of_dec (key_of c') (key_of c)). }
      congruence. }
    destruct Hin as [-> | Hin]; [|now destruct (Hno c Hin)].
    unfold cookie_complete in H0.
    destruct (Solver.c_name c) as [name|] eqn:En; [|discriminate].
    destruct (Solver.c_value c) as [value|] eqn:Ev; [|discriminate].
    exists c, value. repeat split; [now left | assumption |].
    change (jar_after (c :: cs) jar) with (jar_after cs (jar_after [c] jar)).
    rewrite (jar_after_other cs _ Hno).
    unfold jar_after. cbn [fold_left]. rewrite En, Ev.
    unfold key_of. rewrite En.
    apply (lookup_key_set (name, _, _) value jar).
Qed.

End JarFacts.

(* ===================================================================== *)
(** ** Facts: the solver handoff *)
(* ===================================================================== *)

Section SolveFacts.

Context {World : Type}.
Variable solver_post :
  World -> string -> Solver.request -> World * (PyException + Solver.response).
Variable json_dumps_response : Solver.response_json -> string.
Variable json_dumps_request : Solver.request -> string.

Import Spec.

Local Abbreviation solve :=
  (_solve_challenge solver_post json_dumps_response json_dumps_request).

Local Abbreviation M := (@M World).

(** one cookie of the solution *)
Lemma set_solver_cookie_eq c (m : @Machine World) :
  set_solver_cookie c m =
  match _http_client (self m) with
  | None =>
      {| final := m; trace := [];
         result := inl (AttributeError (no_attribute "cookies")) |}
  | Some client =>
      match Solver.c_name c, Solver.c_value c with
      | None, _ => {| final := m; trace := []; result := inl (KeyError "name") |}
      | Some _, None =>
          {| final := m; trace := []; result := inl (KeyError "value") |}
      | Some name, Some value =>
          {| final :=
               {| world := world m;
                  self := with_http_client
                    (Some {| HttpClient.cookies :=
                               CookieJar.set name value
                                 (default EmptyString (Solver.c_domain c))
                                 (default "/" (Solver.c_path c))
                                 (HttpClient.cookies client) |}) (self m) |};
             trace := []; result := inr tt |}
      end
  end.
Proof.
  unfold set_solver_cookie, http_client_attr, bind, get_self, put_self,
    getitem, ret, raise.
  cbn. destruct (_http_client (self m)); cbn; [|reflexivity].
  destruct (Solver.c_name c); cbn; [|reflexivity].
  destruct (Solver.c_value c); reflexivity.
Qed.

Lemma for_each_cons {A} (x : A) xs (body : A -> M unit) m :
  for_each (x :: xs) body m =
  match result (body x m) with
  | inl e =>
      {| final := final (body x m); trace := trace (body x m);
         result := inl e |}
  | inr _ =>
      {| final := final (for_each xs body (final (body x m)));
         trace := trace (body x m) ++ trace (for_each xs body (final (body x m)));
         result := result (for_each xs body (final (body x m))) |}
  end.
Proof. reflexivity. Qed.

(** setting the cookies talks to nobody and leaves the world alone *)
Lemma set_cookies_quiet cs (m : @Machine World) :
  let o := for_each cs set_solver_cookie m in
  trace o = [] /\ world (final o) = world m /\
  _user_agent (self (final o)) = _user_agent (self m) /\
  _solver_url (self (final o)) = _solver_url (self m) /\
  _kwargs (self (final o)) = _kwargs (self m) /\
  _max_tries (self (final o)) = _max_tries (self m) /\
  (is_Some (_http_client (self m)) -> is_Some (_http_client (self (final o)))).
Proof.
  revert m. induction cs as [|c cs IH]; intros m; [cbn; tauto|].
  cbv zeta. rewrite for_each_cons, set_solver_cookie_eq.
  destruct (_http_client (self m)) as [client|] eqn:Ec; cbn;
    [|rewrite Ec; intuition].
  destruct (Solver.c_name c); cbn; [|rewrite Ec; intuition].
  destruct (Solver.c_value c); cbn; [|rewrite Ec; intuition].
  match goal with
  | |- context [for_each cs set_solver_cookie ?m1] =>
      destruct (IH m1) as (-> & -> & -> & -> & -> & -> & H)
  end.
  cbn. repeat split. intros _. apply H. cbn. eauto.
Qed.

(** the cookies are all set exactly when each has a name and a value (and
    there is a transport client to hold them); the jar is then the old
    one with the cookies set in order *)
Lemma set_cookies_returns cs (m : @Machine World) :
  let o := for_each cs set_solver_cookie m in
  result o = inr tt <->
  forallb cookie_complete cs = true /\
  (cs = [] \/ is_Some (_http_client (self m))).
Proof.
  revert m. induction cs as [|c cs IH]; intros m.
  - cbn. intuition.
  - cbv zeta. rewrite for_each_cons, set_solver_cookie_eq.
    cbn [forallb]. unfold cookie_complete at 1.
    destruct (_http_client (self m)) as [client|] eqn:Ec; cbn.
    + destruct (Solver.c_name c); cbn;
        [|split; [discriminate | intros [[=] _]]].
      destruct (Solver.c_value c); cbn;
        [|split; [discriminate | intros [[=] _]]].
      match goal with
      | |- context [for_each cs set_solver_cookie ?m1] =>
          specialize (IH m1); cbv zeta in IH; rewrite IH
      end.
      cbn. split.
      * intros [H _]. split; [assumption | right; eauto].
      * intros [H _]. split; [assumption | right; eauto].
    + split; [discriminate|]. intros [_ [[=] | [? [=]]]].
Qed.

Lemma set_cookies_jar cs (m : @Machine World) :
  let o := for_each cs set_solver_cookie m in
  result o = inr tt ->
  jar_of (self (final o)) = jar_after cs (jar_of (self m)).
Proof.
  revert m. induction cs as [|c cs IH]; intros m; [reflexivity|].
  cbv zeta. rewrite for_each_cons, set_solver_cookie_eq.
  unfold jar_of at 2.
  destruct (_http_client (self m)) as [client|] eqn:Ec; cbn; [|discriminate].
  destruct (Solver.c_name c) eqn:En; cbn; [|discriminate].
  destruct (Solver.c_value c) eqn:Ev; cbn; [|discriminate].
  intros H. now rewrite (IH _ H).
Qed.

(** [_solve_challenge], case by case on what the solver answers *)
Lemma solve_eq url (m : @Machine World) :
  let s := self m in
  let endpoint := _solver_url s +:+ "/get_cookies" in
  let rq :=
    {| Solver.maxTimeout := 60000; Solver.url := url;
       Solver.cookies := map send_cookie (CookieJar.iter (jar_of s));
       Solver.proxy := kw_proxy (_kwargs s) |} in
  let w := fst (solver_post (world m) endpoint rq) in
  let r := snd (solver_post (world m) endpoint rq) in
  let ev := EvSolverPost endpoint rq r in
  let fail e :=
    {| final := {| world := w; self := s |}; trace := [ev];
       result := inl e |} in
  solve url m =
  match r with
  | inl e => fail e
  | inr sr =>
      if (Solver.status_code sr =? 200)%Z then
        match Solver.json sr with
        | None => fail JSONDecodeError
        | Some rj =>
            match Solver.j_solution rj with
            | None =>
                fail (SolverProtocolError url (json_dumps_response rj)
                                          (json_dumps_request rq))
            | Some sol =>
                match Solver.userAgent sol with
                | None => fail (KeyError "userAgent")
                | Some ua =>
                    let m' := {| world := w; self := with_user_agent ua s |} in
                    match Solver.s_cookies sol with
                    | None =>
                        {| final := m'; trace := [ev];
                           result := inl (KeyError "cookies") |}
                    | Some cs =>
                        let o := for_each cs set_solver_cookie m' in
                        {| final := final o; trace := [ev];
                           result := result o |}
                    end
                end
            end
        end
      else fail (SolverUnavailable (Solver.status_code sr))
  end.
Proof.
  cbv zeta.
  assert (Ej : match _http_client (self m) with
               | Some client =>
                   map send_cookie (CookieJar.iter (HttpClient.cookies client))
               | None => []
               end = map send_cookie (CookieJar.iter (jar_of (self m)))).
  { unfold jar_of. now destruct (_http_client (self m)). }
  unfold _solve_challenge, bind, get_self, await_solver_post.
  cbn [final trace result self world]. rewrite Ej.
  destruct (solver_post _ _ _) as [w [e | sr]]; cbn; [reflexivity|].
  destruct (Solver.status_code sr =? 200)%Z; cbn; [|reflexivity].
  destruct (Solver.json sr) as [rj|]; cbn; [|reflexivity].
  destruct (Solver.j_solution rj) as [sol|]; cbn; [|reflexivity].
  destruct (Solver.userAgent sol) as [ua|]; cbn; [|reflexivity].
  destruct (Solver.s_cookies sol) as [cs|]; cbn; [|reflexivity].
  match goal with
  | |- context [for_each cs set_solver_cookie ?m1] =>
      destruct (set_cookies_quiet cs m1) as (Ht & _)
  end.
  cbv zeta in Ht. rewrite Ht.
  match goal with
  | |- context [result ?o] => destruct (result o); reflexivity
  end.
Qed.

End SolveFacts.

(* ===================================================================== *)
(** ** Facts: the request loop *)
(* ===================================================================== *)

Section RequestFacts.

Context {World : Type}.
Variable httpx_AsyncClient : list PyValue -> Kwargs -> HttpClient.t.
Variable solver_post :
  World -> string -> Solver.request -> World * (PyException + Solver.response).
Variable json_dumps_response : Solver.response_json -> string.
Variable json_dumps_request : Solver.request -> string.
Variable run_method : @Transport World.
Variable url : string.
Variable solve_url : option string.
Variable hdrs : headers.

Import Spec.

Local Abbreviation initialised := (initialised httpx_AsyncClient).
Local Abbreviation solve :=
  (_solve_challenge solver_post json_dumps_response json_dumps_request).
Local Abbreviation loop tries :=
  (_request_loop solver_post json_dumps_response json_dumps_request
                 tries run_method url solve_url hdrs).

(** a solve posts once, whatever comes of it *)
Lemma solve_trace target (m : @Machine World) :
  exists endpoint rq r, trace (solve target m) = [EvSolverPost endpoint rq r].
Proof.
  pose proof (solve_eq solver_post json_dumps_response json_dumps_request
                       target m) as E.
  cbv zeta in E. rewrite E.
  repeat match goal with
         | |- context [match ?x with _ => _ end] => destruct x
         end; cbn; eauto.
Qed.

(** a solve keeps the configuration and the transport client, and leaves
    the user agent the solver reported, or else the old one *)
Lemma solve_keeps target (m : @Machine World) :
  let o := solve target m in
  same_config m (final o) /\
  (is_Some (_http_client (self m)) ->
   is_Some (_http_client (self (final o)))) /\
  forall endpoint rq r,
    trace o = [EvSolverPost endpoint rq r] ->
    _user_agent (self (final o)) =
    default (_user_agent (self m)) (reported_user_agent r).
Proof.
  pose proof (solve_eq solver_post json_dumps_response json_dumps_request
                       target m) as E.
  cbv zeta in *. rewrite E. clear E. unfold same_config, reported_user_agent.
  destruct (snd (solver_post _ _ _)) as [e|sr]; cbn.
  { repeat split; auto. now intros ? ? ? [= _ _ <-]. }
  destruct (Solver.status_code sr =? 200)%Z eqn:Es; cbn.
  2:{ repeat split; auto. intros ? ? ? [= _ _ <-]. now rewrite Es. }
  destruct (Solver.json sr) as [[[sol|]]|] eqn:Ej; cbn.
  2,3: repeat split; auto; intros ? ? ? [= _ _ <-]; now rewrite Es, Ej.
  destruct (Solver.userAgent sol) as [ua|] eqn:Eu; cbn.
  2:{ repeat split; auto. intros ? ? ? [= _ _ <-].
      now rewrite Es, Ej, Eu. }
  destruct (Solver.s_cookies sol) as [cs|]; cbn.
  2:{ repeat split; auto. intros ? ? ? [= _ _ <-].
      now rewrite Es, Ej, Eu. }
  match goal with
  | |- context [for_each cs set_solver_cookie ?m1] =>
      destruct (set_cookies_quiet cs m1) as (_ & _ & -> & -> & -> & -> & H)
  end.
  cbn in *. repeat split; auto. intros ? ? ? [= _ _ <-].
  now rewrite Es, Ej, Eu.
Qed.

(** a solve returns when the solver's answer is complete *)
Lemma solve_returns target (m : @Machine World) endpoint rq sr :
  is_Some (_http_client (self m)) ->
  trace (solve target m) = [EvSolverPost endpoint rq (inr sr)] ->
  solution_complete sr = true ->
  result (solve target m) = inr tt.
Proof.
  pose proof (solve_eq solver_post json_dumps_response json_dumps_request
                       target m) as E.
  cbv zeta in *. rewrite E. clear E. intros Hc.
  unfold solution_complete.
  destruct (snd (solver_post _ _ _)) as [e|sr']; cbn; [intros [=]|].
  destruct (Solver.status_code sr' =? 200)%Z eqn:Es; cbn;
    [|intros [= _ _ <-]; now rewrite Es].
  destruct (Solver.json sr') as [[[[[ua|] [cs|]]|]]|] eqn:Ej; cbn;
    intros [= _ _ <-]; rewrite Es, Ej; cbn; try discriminate.
  intros Hall.
  apply (set_cookies_returns cs). split; [assumption | now right].
Qed.

Local Abbreviation request :=
  (_request httpx_AsyncClient solver_post json_dumps_response json_dumps_request
            run_method url solve_url hdrs).

Lemma await_run_method_eq (m : @Machine World) c send_headers :
  _http_client (self m) = Some c ->
  let a := run_method (world m) c url send_headers in
  await_run_method run_method url send_headers m =
  {| final := answered m a.1.1 a.1.2;
     trace := [EvRequest url send_headers a.2];
     result := a.2 |}.
Proof.
  intros Ec. unfold await_run_method. rewrite Ec. cbv zeta.
  now destruct (run_method _ _ _ _) as [[w c'] r].
Qed.

(** one iteration of the loop, case by case on what the transport
    answers *)
Lemma loop_step k (m : @Machine World) c :
  _http_client (self m) = Some c ->
  let send_headers := make_send_headers hdrs (_user_agent (self m)) in
  let a := run_method (world m) c url send_headers in
  let ev := EvRequest url send_headers a.2 in
  let m1 := answered m a.1.1 a.1.2 in
  loop (S k) m =
  match a.2 with
  | inl e => {| final := m1; trace := [ev]; result := inl e |}
  | inr response =>
      match classify response with
      | HARD_BLOCK =>
          {| final := m1; trace := [ev];
             result := inl (CloudFlareBlocked "IP blocked by cloud flare") |}
      | CHALLENGE =>
          let o := solve (solve_target url solve_url) m1 in
          match result o with
          | inl e =>
              {| final := final o; trace := ev :: trace o; result := inl e |}
          | inr _ =>
              let o' := loop k (final o) in
              {| final := final o'; trace := ev :: trace o ++ trace o';
                 result := result o' |}
          end
      | _ => {| final := m1; trace := [ev]; result := inr response |}
      end
  end.
Proof.
  intros Ec. cbv zeta. cbn [_request_loop].
  unfold bind, get_self. cbn [result final trace].
  rewrite (await_run_method_eq _ _ Ec). cbv zeta. cbn [result final trace].
  destruct (run_method _ _ _ _) as [[w c'] [e | response]];
    cbn [fst snd app]; [reflexivity|].
  unfold classify, body.
  destruct (Block.inspected response); [|reflexivity].
  destruct (Block.unsolvable _); [reflexivity|].
  destruct (Block.solvable _); [|reflexivity].
  match goal with
  | |- context [result ?o] => destruct (result o); reflexivity
  end.
Qed.

Lemma loop_zero (m : @Machine World) :
  loop 0 m =
  {| final := m; trace := [];
     result := inl (ChallengeRetriesExceeded (_max_tries (self m))) |}.
Proof. reflexivity. Qed.

(** [_request] is the loop, run on the initialised client *)
Lemma request_eq (m : @Machine World) :
  request m = loop (_max_tries (self m)) (initialised m).
Proof.
  unfold _request, _init_client, initialised, bind, get_self, put_self, ret.
  cbn [result final trace].
  destruct (_http_client (self m));
    cbn [result final trace self app _max_tries with_http_client];
    match goal with
    | |- _ = ?o => destruct o as [f1 t1 [e1|a1]]
    end; reflexivity.
Qed.

Lemma initialised_client (m : @Machine World) :
  is_Some (_http_client (self (initialised m))).
Proof.
  unfold initialised. destruct (_http_client (self m)) eqn:E; cbn; eauto.
Qed.

Lemma initialised_keeps (m : @Machine World) :
  same_config m (initialised m) /\
  _user_agent (self (initialised m)) = _user_agent (self m) /\
  (is_Some (_http_client (self m)) -> initialised m = m).
Proof.
  unfold initialised, same_config.
  destruct (_http_client (self m)) eqn:E; cbn; repeat split; auto.
  intros [? [=]].
Qed.

Lemma same_config_refl (m : @Machine World) : same_config m m.
Proof. now unfold same_config. Qed.

Lemma same_config_trans (m1 m2 m3 : @Machine World) :
  same_config m1 m2 -> same_config m2 m3 -> same_config m1 m3.
Proof. unfold same_config. intuition congruence. Qed.

Lemma answered_config (m : @Machine World) w c :
  same_config m (answered m w c).
Proof. now unfold same_config. Qed.

(** the events of the loop: one attempt, or one attempt, one call of the
    solver and, when the solve returned, the events of the next
    iterations *)
Lemma loop_shape k (m : @Machine World) c :
  _http_client (self m) = Some c ->
  let send_headers := make_send_headers hdrs (_user_agent (self m)) in
  let a := run_method (world m) c url send_headers in
  let ev := EvRequest url send_headers a.2 in
  let o := solve (solve_target url solve_url) (answered m a.1.1 a.1.2) in
  trace (loop (S k) m) = [ev] \/
  exists endpoint rq r,
    trace o = [EvSolverPost endpoint rq r] /\
    (trace (loop (S k) m) = [ev; EvSolverPost endpoint rq r] \/
     trace (loop (S k) m) =
       ev :: EvSolverPost endpoint rq r :: trace (loop k (final o)) /\
     result (loop (S k) m) = result (loop k (final o)) /\
     final (loop (S k) m) = final (loop k (final o))).
Proof.
  intros Ec. cbv zeta. rewrite (loop_step k m Ec). cbv zeta.
  destruct (run_method _ _ _ _).2 as [e|response]; [now left|].
  destruct (classify response); try now left.
  right.
  match goal with
  | |- context [solve ?t ?m1] =>
      destruct (solve_trace t m1) as (endpoint & rq & r & Et)
  end.
  exists endpoint, rq, r. split; [assumption|]. rewrite Et.
  match goal with
  | |- context [result ?o] => destruct (result o)
  end; cbn [trace result final app]; [now left | now right].
Qed.

(** Every event of a run is the head of what is left of the run: an
    attempt starts an iteration of the loop in some state of the client,
    a call of the solver follows the attempt of its iteration. *)
Lemma loop_positions tries :
  forall m : @Machine World,
    is_Some (_http_client (self m)) ->
    forall pre e post,
      trace (loop tries m) = pre ++ e :: post ->
      exists k m',
        is_Some (_http_client (self m')) /\ same_config m m' /\
        result (loop tries m) = result (loop (S k) m') /\
        final (loop tries m) = final (loop (S k) m') /\
        match e with
        | EvRequest _ _ _ =>
            _user_agent (self m') =
            user_agent_after pre (_user_agent (self m)) /\
            trace (loop (S k) m') = e :: post
        | EvSolverPost _ _ _ =>
            exists e0, is_request e0 = true /\
                       trace (loop (S k) m') = e0 :: e :: post
        end.
Proof.
  induction tries as [|k IH]; intros m Hc pre e post Ht.
  { rewrite loop_zero in Ht. cbn in Ht. destruct pre; discriminate. }
  destruct Hc as [c Ec].
  pose proof (loop_shape k m Ec) as Hs. cbv zeta in Hs.
  set (ev := EvRequest url (make_send_headers hdrs (_user_agent (self m))) _)
    in *.
  set (m1 := answered m _ _) in *.
  assert (Hhead : pre = [] -> e = ev ->
            exists k' m',
              is_Some (_http_client (self m')) /\ same_config m m' /\
              result (loop (S k) m) = result (loop (S k') m') /\
              final (loop (S k) m) = final (loop (S k') m') /\
              _user_agent (self m') =
              user_agent_after pre (_user_agent (self m)) /\
              trace (loop (S k') m') = e :: post).
  { intros -> ->. exists k, m. repeat split; eauto using same_config_refl. }
  destruct Hs as [H1 | (endpoint & rq & r & Et & Hs)].
  { rewrite H1 in Ht. destruct pre as [|p0 pre].
    - injection Ht as <- <-. now apply Hhead.
    - injection Ht as _ Ht. destruct pre; discriminate. }
  set (sev := EvSolverPost endpoint rq r) in *.
  assert (Hsecond : pre = [ev] -> e = sev ->
            exists k' m',
              is_Some (_http_client (self m')) /\ same_config m m' /\
              result (loop (S k) m) = result (loop (S k') m') /\
              final (loop (S k) m) = final (loop (S k') m') /\
              exists e0, is_request e0 = true /\
                         trace (loop (S k') m') = e0 :: e :: post).
  { intros -> ->. exists k, m.
    split; [eauto|]. split; [apply same_config_refl|].
    split; [reflexivity|]. split; [reflexivity|].
    exists ev. split; [reflexivity | exact Ht]. }
  destruct Hs as [H2 | (H3 & Hr & Hf)].
  { rewrite H2 in Ht. destruct pre as [|p0 [|p1 pre]].
    - injection Ht as <- <-. now apply Hhead.
    - injection Ht as <- <- <-. now apply Hsecond.
    - injection Ht as _ _ Ht. destruct pre; discriminate. }
  rewrite H3 in Ht. destruct pre as [|p0 [|p1 pre]].
  - injection Ht as <- <-. now apply Hhead.
  - injection Ht as <- <- <-. now apply Hsecond.
  - injection Ht as <- <- Ht.
    destruct (solve_keeps (solve_target url solve_url) m1)
      as (Hcfg & Hcl & Hua).
    specialize (Hua _ _ _ Et).
    assert (Hc1 : is_Some (_http_client (self m1))) by (cbn; eauto).
    destruct (IH _ (Hcl Hc1) pre e post Ht)
      as (k' & m' & Hc' & Hcfg' & Hr' & Hf' & He).
    exists k', m'. split; [assumption|]. split.
    { eapply same_config_trans; [|exact Hcfg'].
      eapply same_config_trans; [|exact Hcfg]. apply answered_config. }
    split; [congruence|]. split; [congruence|].
    destruct e; [|exact He].
    destruct He as [He1 He2]. split; [|exact He2].
    rewrite He1, Hua. reflexivity.
Qed.

(** what [_request] does with a response, by what the response is *)
Lemma classify_spec response :
  match classify response with
  | OK => ~ Inspected response
  | HARD_BLOCK => Inspected response /\ HardBlock (body response)
  | CHALLENGE =>
      Inspected response /\ ~ HardBlock (body response) /\
      Challenge (body response)
  | UNRELATED_403 =>
      Inspected response /\ ~ HardBlock (body response) /\
      ~ Challenge (body response)
  end.
Proof.
  unfold classify.
  destruct (Block.inspected response) eqn:Ei.
  2:{ rewrite <- BlockFacts.inspected_spec. congruence. }
  apply BlockFacts.inspected_spec in Ei.
  destruct (Block.unsolvable (body response)) eqn:Eu.
  { apply BlockFacts.unsolvable_spec in Eu. tauto. }
  assert (~ HardBlock (body response)).
  { rewrite <- BlockFacts.unsolvable_spec. congruence. }
  destruct (Block.solvable (body response)) eqn:Es.
  { apply BlockFacts.solvable_spec in Es. tauto. }
  assert (~ Challenge (body response)).
  { rewrite <- BlockFacts.solvable_spec. congruence. }
  tauto.
Qed.

(** an attempt at the head of the loop: what was sent, and what comes
    after it *)
Lemma attempt_outcome k (m : @Machine World) u h r post :
  is_Some (_http_client (self m)) ->
  trace (loop (S k) m) = EvRequest u h r :: post ->
  u = url /\ h = make_send_headers hdrs (_user_agent (self m)) /\
  match r with
  | inl e => post = [] /\ result (loop (S k) m) = inl e
  | inr response =>
      match classify response with
      | HARD_BLOCK =>
          post = [] /\
          result (loop (S k) m) =
          inl (CloudFlareBlocked "IP blocked by cloud flare")
      | CHALLENGE =>
          exists endpoint rq r' post',
            post = EvSolverPost endpoint rq r' :: post'
      | _ => post = [] /\ result (loop (S k) m) = inr response
      end
  end.
Proof.
  intros [c Ec]. rewrite (loop_step k m Ec). cbv zeta.
  destruct (run_method _ _ _ _).2 as [e|response]; cbn [trace result].
  { intros [= <- <- <- <-]. auto. }
  destruct (classify response) eqn:Ecl; cbn [trace result];
    try (intros [= <- <- <- <-]; rewrite Ecl; auto).
  match goal with
  | |- context [solve ?t ?m1] =>
      destruct (solve_trace t m1) as (endpoint & rq & r' & Et)
  end.
  rewrite Et.
  match goal with
  | |- context [result ?o] => destruct (result o)
  end; cbn [trace result app]; intros [= <- <- <- <-]; rewrite Ecl; eauto 10.
Qed.

(** a call of the solver at the second place of the loop: what was sent,
    and what comes after it *)
Lemma solve_outcome k (m : @Machine World) e0 endpoint rq r post :
  is_Some (_http_client (self m)) ->
  trace (loop (S k) m) = e0 :: EvSolverPost endpoint rq r :: post ->
  exists m1 : @Machine World,
    same_config m m1 /\
    trace (solve (solve_target url solve_url) m1) =
      [EvSolverPost endpoint rq r] /\
    match result (solve (solve_target url solve_url) m1) with
    | inl e => post = [] /\ result (loop (S k) m) = inl e
    | inr _ => True
    end.
Proof.
  intros [c Ec]. rewrite (loop_step k m Ec). cbv zeta.
  destruct (run_method _ _ _ _).2 as [e|response]; cbn [trace result];
    [discriminate|].
  destruct (classify response); cbn [trace result]; try discriminate.
  match goal with
  | |- context [solve ?t ?m1] =>
      destruct (solve_trace t m1) as (endpoint' & rq' & r' & Et);
      intros Ht; exists m1
  end.
  split; [apply answered_config|]. revert Ht. rewrite Et.
  match goal with
  | |- context [result ?o] => destruct (result o)
  end; cbn [trace result app]; intros [= _ <- <- <- <-]; auto.
Qed.

(** a run in which every attempt meets a challenge and every solve
    returns *)
Lemma loop_exhausted tries :
  forall m : @Machine World,
    is_Some (_http_client (self m)) ->
    Forall (fun e => challenged e /\ solved e) (trace (loop tries m)) ->
    result (loop tries m) =
      inl (ChallengeRetriesExceeded (_max_tries (self m))) /\
    map kind_of (trace (loop tries m)) = rounds tries.
Proof.
  induction tries as [|k IH]; intros m Hc Hall.
  { rewrite loop_zero. auto. }
  destruct Hc as [c Ec].
  pose proof (loop_step k m Ec) as Es. cbv zeta in Es.
  rewrite Es in Hall |- *. clear Es.
  destruct (run_method _ _ _ _).2 as [e|response]; cbn [trace result] in *.
  { apply Forall_inv in Hall as [(? & [=] & _) _]. }
  assert (Ecl : classify response = CHALLENGE).
  { destruct (classify response) eqn:E; try reflexivity;
      cbn [trace] in Hall;
      apply Forall_inv in Hall as [(? & [= <-] & H) _]; congruence. }
  rewrite Ecl in *.
  match type of Hall with
  | context [solve ?t ?m1] =>
      destruct (solve_trace t m1) as (endpoint & rq & r & Et);
      destruct (solve_keeps t m1) as (Hcfg & Hcl & _)
  end.
  rewrite Et in Hall |- *.
  match type of Hall with
  | context [result ?o] => destruct (result o) as [e|[]] eqn:Er
  end; cbn [trace result app] in *.
  - apply Forall_inv_tail, Forall_inv in Hall as [_ (sr & -> & Hsr)].
    apply solve_returns in Et; [congruence | cbn; eauto | exact Hsr].
  - apply Forall_inv_tail, Forall_inv_tail in Hall.
    destruct (IH _ (Hcl ltac:(cbn; eauto)) Hall) as [-> Hm].
    split.
    + destruct Hcfg as (_ & _ & ->). reflexivity.
    + cbn [map app kind_of rounds]. now rewrite Hm.
Qed.

(** the user agent of the client follows the answers of the solver *)
Lemma loop_user_agent tries :
  forall m : @Machine World,
    is_Some (_http_client (self m)) ->
    _user_agent (self (final (loop tries m))) =
    user_agent_after (trace (loop tries m)) (_user_agent (self m)).
Proof.
  induction tries as [|k IH]; intros m Hc; [reflexivity|].
  destruct Hc as [c Ec].
  rewrite (loop_step k m Ec). cbv zeta.
  destruct (run_method _ _ _ _).2 as [e|response];
    cbn [trace result final]; [reflexivity|].
  destruct (classify response); cbn [trace result final]; try reflexivity.
  match goal with
  | |- context [solve ?t ?m1] =>
      destruct (solve_trace t m1) as (endpoint & rq & r & Et);
      destruct (solve_keeps t m1) as (_ & Hcl & Hua)
  end.
  specialize (Hua _ _ _ Et). rewrite Et.
  match goal with
  | |- context [result ?o] => destruct (result o)
  end; cbn [trace result final app user_agent_after]; [exact Hua|].
  rewrite IH by (apply Hcl; cbn; eauto). now rewrite Hua.
Qed.

(** what a solve posts *)
Lemma solve_request target (m : @Machine World) endpoint rq r :
  trace (solve target m) = [EvSolverPost endpoint rq r] ->
  endpoint = _solver_url (self m) +:+ "/get_cookies" /\
  rq = {| Solver.maxTimeout := 60000; Solver.url := target;
          Solver.cookies :=
            map send_cookie (CookieJar.iter (jar_of (self m)));
          Solver.proxy := kw_proxy (_kwargs (self m)) |}.
Proof.
  pose proof (solve_eq solver_post json_dumps_response json_dumps_request
                       target m) as E.
  cbv zeta in E. rewrite E. clear E.
  repeat match goal with
         | |- context [match ?x with _ => _ end] => destruct x
         end; cbn [trace]; intros [= <- <- _]; auto.
Qed.

(** a solve on an answer that is not a 200 *)
Lemma solve_unavailable target (m : @Machine World) endpoint rq sr :
  trace (solve target m) = [EvSolverPost endpoint rq (inr sr)] ->
  Solver.status_code sr <> 200%Z ->
  result (solve target m) = inl (SolverUnavailable (Solver.status_code sr)) /\
  self (final (solve target m)) = self m.
Proof.
  pose proof (solve_eq solver_post json_dumps_response json_dumps_request
                       target m) as E.
  cbv zeta in E. rewrite E. clear E.
  destruct (snd (solver_post _ _ _)) as [e|sr']; cbn [trace];
    [intros [=]|].
  destruct (Solver.status_code sr' =? 200)%Z eqn:Es.
  - apply Z.eqb_eq in Es.
    repeat match goal with
           | |- context [match ?x with _ => _ end] => destruct x
           end; cbn [trace]; intros [= _ _ <-]; contradiction.
  - cbn. intros [= _ _ <-]. auto.
Qed.

(** a solve on a 200 whose object has no ["solution"] *)
Lemma solve_no_solution target (m : @Machine World) endpoint rq sr rj :
  trace (solve target m) = [EvSolverPost endpoint rq (inr sr)] ->
  Solver.status_code sr = 200%Z ->
  Solver.json sr = Some rj ->
  Solver.j_solution rj = None ->
  result (solve target m) =
    inl (SolverProtocolError target (json_dumps_response rj)
                             (json_dumps_request rq)) /\
  self (final (solve target m)) = self m.
Proof.
  intros Ht. destruct (solve_request _ _ Ht) as [_ Erq]. revert Ht.
  pose proof (solve_eq solver_post json_dumps_response json_dumps_request
                       target m) as E.
  cbv zeta in E. rewrite E. clear E. rewrite <- Erq.
  destruct (snd (solver_post _ _ _)) as [e|sr']; cbn [trace];
    [intros [=]|].
  intros Ht Es Ej En.
  assert (sr' = sr) as ->.
  { repeat match type of Ht with
           | context [match ?x with _ => _ end] => destruct x
           end; cbn [trace] in Ht; now injection Ht. }
  apply Z.eqb_eq in Es. rewrite Es, Ej, En. cbn. auto.
Qed.

(** a solve that returns has applied the whole solution *)
Lemma solve_applied target (m : @Machine World) endpoint rq sr :
  trace (solve target m) = [EvSolverPost endpoint rq (inr sr)] ->
  result (solve target m) = inr tt ->
  exists ua cs,
    Solver.status_code sr = 200%Z /\
    Solver.json sr =
      Some {| Solver.j_solution :=
                Some {| Solver.userAgent := Some ua;
                        Solver.s_cookies := Some cs |} |} /\
    forallb cookie_complete cs = true /\
    _user_agent (self (final (solve target m))) = ua /\
    jar_of (self (final (solve target m))) = jar_after cs (jar_of (self m)).
Proof.
  pose proof (solve_eq solver_post json_dumps_response json_dumps_request
                       target m) as E.
  cbv zeta in E. rewrite E. clear E.
  destruct (snd (solver_post _ _ _)) as [e|sr']; cbn [trace];
    [intros [=]|].
  destruct (Solver.status_code sr' =? 200)%Z eqn:Es;
    [|cbn; intros _ [=]].
  destruct (Solver.json sr') as [[[[[ua|] [cs|]]|]]|] eqn:Ej;
    cbn [trace result final Solver.j_solution Solver.userAgent
         Solver.s_cookies];
    intros [= _ _ <-]; try discriminate.
  intros Hr. exists ua, cs. apply Z.eqb_eq in Es.
  repeat split; try assumption.
  - now apply (set_cookies_returns cs) in Hr.
  - match goal with
    | |- context [for_each cs set_solver_cookie ?m1] =>
        destruct (set_cookies_quiet cs m1) as (_ & _ & -> & _)
    end. reflexivity.
  - now rewrite (set_cookies_jar cs _ Hr).
Qed.

(** counting the events of a run that only went round *)
Lemma rounds_count n (tr : list Event) :
  map kind_of tr = rounds n -> attempts tr = n /\ solver_calls tr = n.
Proof.
  unfold attempts, solver_calls. revert tr.
  induction n as [|n IH]; intros tr H.
  - destruct tr; [auto | discriminate].
  - destruct tr as [|e1 [|e2 tr]]; try discriminate.
    cbn [map rounds] in H. injection H as H1 H2 H.
    destruct (IH _ H) as [Ha Hs].
    destruct e1; [|discriminate]. destruct e2; [discriminate|].
    cbn. now rewrite Ha, Hs.
Qed.

End RequestFacts.

Lemma met_challenge_spec e : met_challenge e = true -> challenged e.
Proof.
  destruct e as [u h [e|response]|]; cbn; try discriminate; [|auto].
  destruct (Spec.classify response) eqn:E; try discriminate. eauto.
Qed.

Lemma brought_solution_spec e : brought_solution e = true -> solved e.
Proof.
  destruct e as [|ep rq [e|response]]; cbn; try discriminate; eauto.
Qed.

Lemma forallb_Forall {A} (f : A -> bool) (P : A -> Prop) (l : list A) :
  (forall x, f x = true -> P x) -> forallb f l = true -> Forall P l.
Proof.
  intros H. induction l as [|x l IH]; cbn; [constructor|].
  intros [Hx Hl]%andb_true_iff. constructor; auto.
Qed.

(* ===================================================================== *)
(** ** Properties of the client *)
(* ===================================================================== *)

Section Properties.

Context {World : Type}.
Variable httpx_AsyncClient : list PyValue -> Kwargs -> HttpClient.t.
Variable solver_post :
  World -> string -> Solver.request -> World * (PyException + Solver.response).
Variable json_dumps_response : Solver.response_json -> string.
Variable json_dumps_request : Solver.request -> string.
Variable run_method : @Transport World.
Variable url : string.
Variable solve_url : option string.
Variable hdrs : headers.

Import Spec.

Local Abbreviation initialised := (initialised httpx_AsyncClient).
Local Abbreviation solve :=
  (_solve_challenge solver_post json_dumps_response json_dumps_request).
Local Abbreviation loop tries :=
  (_request_loop solver_post json_dumps_response json_dumps_request
                 tries run_method url solve_url hdrs).
Local Abbreviation request :=
  (_request httpx_AsyncClient solver_post json_dumps_response json_dumps_request
            run_method url solve_url hdrs).

(** the state of the client at an attempt of a call, and the rest of the
    call from there *)
Lemma request_attempt (m : @Machine World) pre u h r post :
  trace (request m) = pre ++ EvRequest u h r :: post ->
  exists k m',
    is_Some (_http_client (self m')) /\
    result (request m) = result (loop (S k) m') /\
    _user_agent (self m') = user_agent_after pre (_user_agent (self m)) /\
    trace (loop (S k) m') = EvRequest u h r :: post.
Proof.
  rewrite request_eq. intros Ht.
  apply loop_positions in Ht as (k & m' & Hc & _ & Hr & _ & Hu & Ht);
    [|apply initialised_client].
  exists k, m'. repeat split; try assumption.
  rewrite Hu. f_equal. apply initialised_keeps.
Qed.

(** the state of the client at a call of the solver *)
Lemma request_solve (m : @Machine World) pre endpoint rq r post :
  trace (request m) = pre ++ EvSolverPost endpoint rq r :: post ->
  exists m1 : @Machine World,
    same_config m m1 /\
    trace (solve (solve_target url solve_url) m1) =
      [EvSolverPost endpoint rq r] /\
    match result (solve (solve_target url solve_url) m1) with
    | inl e => post = [] /\ result (request m) = inl e
    | inr _ => True
    end.
Proof.
  rewrite request_eq. intros Ht.
  apply loop_positions in Ht as (k & m' & Hc & Hcfg & Hr & _ & e0 & _ & Ht);
    [|apply initialised_client].
  apply solve_outcome in Ht as (m1 & Hcfg1 & Ht & Ho); [|assumption].
  exists m1. split.
  { eapply same_config_trans; [apply initialised_keeps|].
    eapply same_config_trans; eassumption. }
  split; [assumption|]. rewrite Hr.
  destruct (result (solve _ m1)); auto.
Qed.

(** a call with [_max_tries] above zero starts with an attempt: it goes
    through the transport client the client has, or else the one
    [_init_client] makes, and carries the user agent of the client *)
Lemma request_first (m : @Machine World) :
  0 < _max_tries (self m) ->
  let h := make_send_headers hdrs (_user_agent (self m)) in
  exists post,
    trace (request m) =
    EvRequest url h
      (run_method (world m) (client_of httpx_AsyncClient (self m)) url h).2
    :: post.
Proof.
  intros Hk h. subst h. rewrite request_eq.
  assert (Hs : _http_client (self (initialised m)) =
                 Some (client_of httpx_AsyncClient (self m)) /\
               world (initialised m) = world m /\
               _user_agent (self (initialised m)) = _user_agent (self m)).
  { unfold initialised, client_of.
    destruct (_http_client (self m)) eqn:E; cbn; rewrite ?E; auto. }
  destruct Hs as (Ec & Ew & Eu).
  destruct (_max_tries (self m)) as [|k]; [lia|].
  pose proof (loop_shape solver_post json_dumps_response json_dumps_request
                run_method url solve_url hdrs k (initialised m) Ec) as Hs.
  cbv zeta in Hs. rewrite Ew, Eu in Hs.
  destruct Hs as [H1 | (ep & rq & r0 & _ & [H2 | (H3 & _)])];
    [rewrite H1 | rewrite H2 | rewrite H3]; eauto.
Qed.

(** C1 (as amended). In a call in which every attempt meets a challenge
    page and every call of the solver brings a complete solution, the
    client makes [_max_tries] attempts, calls the solver once after each
    of them, and then raises the exception that reports the exhausted
    retries, whose message names [_max_tries]. *)
Theorem challenge_retries_exceeded (m : @Machine World) :
  Forall (fun e => challenged e /\ solved e) (trace (request m)) ->
  result (request m) =
    inl (ChallengeRetriesExceeded (_max_tries (self m))) /\
  map kind_of (trace (request m)) = rounds (_max_tries (self m)) /\
  attempts (trace (request m)) = _max_tries (self m) /\
  solver_calls (trace (request m)) = _max_tries (self m) /\
  exists msg,
    result (request m) = inl (Exception msg) /\
    PyStr.Mentions (PyStr.str_nat (_max_tries (self m))) msg.
Proof.
  rewrite request_eq. intros Hall.
  apply loop_exhausted in Hall as [Hr Hk]; [|apply initialised_client].
  destruct (initialised_keeps httpx_AsyncClient m) as ((_ & _ & En) & _).
  rewrite En in Hr. pose proof (rounds_count _ _ Hk) as [Ha Hs].
  repeat split; try assumption.
  eexists. split; [exact Hr|]. apply PyStrFacts.Mentions_middle.
Qed.

(** C2. A response with status 403, an HTML content type and a body in
    which "access denied" occurs with a title "access denied ...
    cloudflare ...", or "ip banned" and "cloudflare" occur with a title
    "ip banned ...", ends the call on its attempt: nothing follows the
    attempt, neither a call of the solver nor another attempt, and the
    call raises [CloudFlareBlocked]. *)
Theorem hard_block_raises (m : @Machine World) pre u h response post :
  trace (request m) = pre ++ EvRequest u h (inr response) :: post ->
  Inspected response ->
  HardBlock (body response) ->
  post = [] /\
  result (request m) = inl (CloudFlareBlocked "IP blocked by cloud flare").
Proof.
  intros Ht Hi Hb.
  apply request_attempt in Ht as (k & m' & Hc & -> & _ & Ht).
  apply attempt_outcome in Ht as (_ & _ & H); [|assumption].
  pose proof (classify_spec response) as Hcl.
  destruct (classify response); tauto.
Qed.

(** C3. A response with status 403, an HTML content type and a body that
    is not empty and not a hard block is a challenge exactly when, for one
    of the four markers, the lower-cased body holds the phrase and a title
    element that spells it with text around it; and exactly then a call
    of the solver follows the attempt. This holds at every attempt of a
    call that is answered with the response; and a call whose first attempt
    is answered with it does make that attempt, calls the solver right
    after it when the response is a challenge, and returns the response
    without a call of the solver when it is not. *)
Theorem challenge_iff_marker_and_title response :
  Inspected response ->
  ~ HardBlock (body response) ->
  (classify response = CHALLENGE <-> Challenge (body response)) /\
  (forall (m : @Machine World) pre u h post,
     trace (request m) = pre ++ EvRequest u h (inr response) :: post ->
     ((exists endpoint rq r post',
          post = EvSolverPost endpoint rq r :: post') <->
      Challenge (body response))) /\
  (forall m : @Machine World,
     0 < _max_tries (self m) ->
     let h := make_send_headers hdrs (_user_agent (self m)) in
     (run_method (world m) (client_of httpx_AsyncClient (self m)) url h).2 =
       inr response ->
     exists post,
       trace (request m) = EvRequest url h (inr response) :: post /\
       (Challenge (body response) ->
        exists endpoint rq r post',
          post = EvSolverPost endpoint rq r :: post') /\
       (~ Challenge (body response) ->
        post = [] /\ result (request m) = inr response)).
Proof.
  intros Hi Hb. pose proof (classify_spec response) as Hcl.
  assert (Hat : forall (m : @Machine World) pre u h post,
             trace (request m) = pre ++ EvRequest u h (inr response) :: post ->
             (Challenge (body response) ->
              exists endpoint rq r post',
                post = EvSolverPost endpoint rq r :: post') /\
             (~ Challenge (body response) ->
              post = [] /\ result (request m) = inr response)).
  { intros m pre u h post Ht.
    apply request_attempt in Ht as (k & m' & Hc & -> & _ & Ht).
    apply attempt_outcome in Ht as (_ & _ & H); [|assumption].
    destruct (classify response); tauto. }
  split; [|split].
  - destruct (classify response); split; try discriminate; tauto.
  - intros m pre u h post Ht.
    destruct (Hat m pre u h post Ht) as [Hyes Hno].
    split; [|exact Hyes].
    intros (? & ? & ? & ? & E).
    destruct (classify response); try tauto;
      destruct Hno as [-> _]; try tauto; discriminate.
  - intros m Hk h Hr.
    destruct (request_first m Hk) as [post Ht]. cbv zeta in Ht.
    fold h in Ht. rewrite Hr in Ht.
    exists post. split; [exact Ht|].
    apply (Hat m [] url h post Ht).
Qed.

(** C4. After a solve that returns, the user agent of the client is the
    one the solver reported; every cookie of the solution is in the jar
    under (name, domain or the empty string, path or "/"), with the value
    of a cookie of the solution with that key; and the keys no cookie of
    the solution has hold what they held. *)
Theorem solve_applies_solution target (m : @Machine World) endpoint rq sr :
  trace (solve target m) = [EvSolverPost endpoint rq (inr sr)] ->
  result (solve target m) = inr tt ->
  exists sol cs,
    Solver.status_code sr = 200%Z /\
    Solver.json sr = Some {| Solver.j_solution := Some sol |} /\
    Solver.s_cookies sol = Some cs /\
    Solver.userAgent sol =
      Some (_user_agent (self (final (solve target m)))) /\
    (forall c, In c cs ->
       exists name value c',
         Solver.c_name c = Some name /\
         In c' cs /\ key_of c' = key_of c /\
         Solver.c_value c' = Some value /\
         CookieJar.lookup name (default EmptyString (Solver.c_domain c))
                          (default "/" (Solver.c_path c))
                          (jar_of (self (final (solve target m)))) =
         Some (stored (key_of c) value)) /\
    (forall name domain path,
       (forall c, In c cs -> key_of c <> (name, domain, path)) ->
       CookieJar.lookup name domain path
                        (jar_of (self (final (solve target m)))) =
       CookieJar.lookup name domain path (jar_of (self m))).
Proof.
  intros Ht Hr.
  eapply solve_applied in Hr as (ua & cs & Es & Ej & Hall & Hu & Hj);
    [|exact Ht].
  eexists _, cs. split; [exact Es|]. split; [exact Ej|].
  split; [reflexivity|]. split; [now rewrite Hu|]. rewrite Hj. split.
  - intros c Hc.
    destruct (JarFacts.jar_after_present cs (jar_of (self m)) c Hall Hc)
      as (c' & value & Hc' & Ek & Hv & Hl).
    assert (Hcc : cookie_complete c = true).
    { rewrite forallb_forall in Hall. now apply Hall. }
    unfold cookie_complete in Hcc.
    destruct (Solver.c_name c) as [name|] eqn:En; [|discriminate].
    exists name, value, c'. repeat split; try assumption.
    unfold key_of in Hl at 1. rewrite En in Hl. exact Hl.
  - intros name domain path Hno.
    apply (JarFacts.jar_after_other cs (jar_of (self m))
                                    (k := (name, domain, path)) Hno).
Qed.

(** C5. A response whose status is not 403, or whose content type does
    not start with text/html, or whose body is empty, or that is neither
    a hard block nor a challenge, is returned as it is on the attempt that
    received it, whichever attempt it is: nothing follows the attempt. *)
Theorem other_responses_returned (m : @Machine World) pre u h response post :
  trace (request m) = pre ++ EvRequest u h (inr response) :: post ->
  Response.status_code response <> 403%Z \/
  ~ Html response \/
  Response.text response = EmptyString \/
  (~ HardBlock (body response) /\ ~ Challenge (body response)) ->
  post = [] /\ result (request m) = inr response.
Proof.
  intros Ht Hcase.
  apply request_attempt in Ht as (k & m' & Hc & -> & _ & Ht).
  apply attempt_outcome in Ht as (_ & _ & H); [|assumption].
  pose proof (classify_spec response) as Hcl. unfold Inspected in Hcl.
  destruct (classify response); tauto.
Qed.

(** C6 (as amended). Every request the client posts to the solver goes
    to [/get_cookies] under the solver's address and has [maxTimeout]
    60000, the proxy of the client's configuration, and its cookies are the
    cookies the jar of the client holds when the solver is called, each with
    its name, value, domain, path, port, secure flag and expiry; in a call
    its [url] is the caller's [solve_url] when one was given and is not
    empty, and the url of the request otherwise. *)
Theorem solver_request_contents :
  (forall target (m : @Machine World) endpoint rq r,
      trace (solve target m) = [EvSolverPost endpoint rq r] ->
      endpoint = _solver_url (self m) +:+ "/get_cookies" /\
      Solver.maxTimeout rq = 60000%Z /\
      Solver.url rq = target /\
      Solver.proxy rq = kw_proxy (_kwargs (self m)) /\
      Forall2 snapshot (Solver.cookies rq)
              (CookieJar.iter (jar_of (self m))) /\
      forall name domain path c,
        CookieJar.lookup name domain path (jar_of (self m)) = Some c ->
        exists d, In d (Solver.cookies rq) /\ snapshot d c) /\
  (forall (m : @Machine World) pre endpoint rq r post,
      trace (request m) = pre ++ EvSolverPost endpoint rq r :: post ->
      endpoint = _solver_url (self m) +:+ "/get_cookies" /\
      Solver.maxTimeout rq = 60000%Z /\
      Solver.proxy rq = kw_proxy (_kwargs (self m)) /\
      (forall u, solve_url = Some u -> u <> EmptyString -> Solver.url rq = u) /\
      (solve_url = None \/ solve_url = Some EmptyString ->
       Solver.url rq = url) /\
      exists m1 : @Machine World,
        trace (solve (Solver.url rq) m1) = [EvSolverPost endpoint rq r]).
Proof.
  split.
  - intros target m endpoint rq r Ht.
    destruct (solve_request _ _ _ _ _ Ht) as [-> ->].
    cbn [Solver.maxTimeout Solver.proxy Solver.url Solver.cookies].
    repeat split.
    + apply JarFacts.send_cookies_snapshot.
    + intros name domain path c Hl.
      apply JarFacts.lookup_In_iter in Hl.
      exists (send_cookie c). split; [now apply in_map | now unfold snapshot].
  - intros m pre endpoint rq r post Ht.
    apply request_solve in Ht as (m1 & (Eu & Ek & _) & Ht & _).
    destruct (solve_request _ _ _ _ _ Ht) as [-> ->].
    cbn [Solver.maxTimeout Solver.proxy Solver.url Solver.cookies].
    split; [now rewrite Eu|]. split; [reflexivity|].
    split; [now rewrite Ek|]. repeat split.
    + intros u -> Hu. cbn. apply String.eqb_neq in Hu. now rewrite Hu.
    + now intros [-> | ->].
    + exists m1. exact Ht.
Qed.

(** C7. When the solver answers with a status other than 200, the solve
    raises the exception that reports the solver as unavailable, which
    depends on the status alone; nothing follows the call of the solver,
    and the exception leaves the call. *)
Theorem solver_unavailable sr :
  Solver.status_code sr <> 200%Z ->
  (forall target (m : @Machine World) endpoint rq,
      trace (solve target m) = [EvSolverPost endpoint rq (inr sr)] ->
      result (solve target m) =
        inl (SolverUnavailable (Solver.status_code sr))) /\
  (forall (m : @Machine World) pre endpoint rq post,
      trace (request m) = pre ++ EvSolverPost endpoint rq (inr sr) :: post ->
      post = [] /\
      result (request m) = inl (SolverUnavailable (Solver.status_code sr))).
Proof.
  intros Hs. split.
  - intros target m endpoint rq Ht.
    now apply (solve_unavailable _ _ _ _ _ Ht).
  - intros m pre endpoint rq post Ht.
    apply request_solve in Ht as (m1 & _ & Ht & Ho).
    destruct (solve_unavailable _ _ _ _ _ Ht Hs) as [Hr _].
    now rewrite Hr in Ho.
Qed.


(** C9. On every attempt of a call the headers sent through the transport
    are the caller's headers with ["user-agent"] set to the user agent
    the session has at that attempt and ["cache-control"] set to
    "no-cache": the two entries override the caller's, every other entry
    of the caller passes through. *)
Theorem send_headers_merge (m : @Machine World) pre u h r post :
  trace (request m) = pre ++ EvRequest u h r :: post ->
  u = url /\
  h !! "user-agent" =
    Some (user_agent_after pre (_user_agent (self m))) /\
  h !! "cache-control" = Some "no-cache" /\
  forall key : string,
    key <> "user-agent" -> key <> "cache-control" -> h !! key = hdrs !! key.
Proof.
  intros Ht.
  apply request_attempt in Ht as (k & m' & Hc & _ & Hu & Ht).
  apply attempt_outcome in Ht as (-> & -> & _); [|assumption].
  unfold make_send_headers. rewrite <- Hu. repeat split.
  - rewrite lookup_insert_ne by discriminate. apply lookup_insert_eq.
  - apply lookup_insert_eq.
  - intros key H1 H2. now rewrite !lookup_insert_ne by congruence.
Qed.

(** C10 (as amended). A solve that fails because the solver's status is
    not 200, or because the solver's object has no ["solution"], leaves the
    client as it was: the user agent and the jar are those from before the
    solve. *)
Theorem failed_solve_keeps_session target (m : @Machine World) endpoint rq sr :
  trace (solve target m) = [EvSolverPost endpoint rq (inr sr)] ->
  Solver.status_code sr <> 200%Z \/
  (exists rj, Solver.json sr = Some rj /\ Solver.j_solution rj = None) ->
  (exists e, result (solve target m) = inl e) /\
  self (final (solve target m)) = self m /\
  _user_agent (self (final (solve target m))) = _user_agent (self m) /\
  jar_of (self (final (solve target m))) = jar_of (self m).
Proof.
  intros Ht Hcase.
  assert (H : (exists e, result (solve target m) = inl e) /\
              self (final (solve target m)) = self m).
  { destruct (Z.eq_dec (Solver.status_code sr) 200%Z) as [Es|Es].
    - destruct Hcase as [? | (rj & Hj & Hn)]; [contradiction|].
      destruct (solve_no_solution _ _ _ _ _ Ht Es Hj Hn) as [Hr Hf]. eauto.
    - destruct (solve_unavailable _ _ _ _ _ Ht Es) as [Hr Hf]. eauto. }
  destruct H as [He Hf]. rewrite Hf. auto.
Qed.

(** the replayed user agent is the one the client ends with *)
Lemma request_user_agent (m : @Machine World) :
  _user_agent (self (final (request m))) =
  user_agent_after (trace (request m)) (_user_agent (self m)).
Proof.
  rewrite request_eq, loop_user_agent by apply initialised_client.
  f_equal. apply initialised_keeps.
Qed.

End Properties.

(* ===================================================================== *)
(** ** The properties at work *)
(* ===================================================================== *)

Import Spec.

(** A site that keeps answering the challenge page, a solver that solves:
    two attempts, two calls of the solver, and the retries are exhausted. *)
Lemma challenge_retries_exceeded_witness :
  let o := Scenario.request (Scenario.solver Scenario.solved)
             (Scenario.always Scenario.challenge_page) None ∅ Scenario.start in
  Forall (fun e => challenged e /\ solved e) (trace o) /\
  result o =
    inl (Exception "Can't solve challenge: challenge got 2 times ... (max tries exceded)") /\
  attempts (trace o) = 2 /\ solver_calls (trace o) = 2.
Proof.
  intros o.
  assert (H : Forall (fun e => challenged e /\ solved e) (trace o)).
  { apply (forallb_Forall (fun e => met_challenge e && brought_solution e)).
    - intros e [H1 H2]%andb_true_iff.
      split; [now apply met_challenge_spec | now apply brought_solution_spec].
    - vm_compute. reflexivity. }
  split; [exact H|].
  destruct (challenge_retries_exceeded _ _ _ _ _ _ _ _ _ H)
    as (Hr & _ & Ha & Hs & _).
  repeat split; assumption.
Defined.

(** C1 (as stated) fails: both attempts meet the challenge page, the solver
    is called once after each, and the second call finds the solver down;
    the call raises the exception of the solver, not that of the retries. *)
Lemma challenge_retries_counterexample :
  let o := Scenario.request
             (Scenario.solver_then Scenario.solved Scenario.down)
             (Scenario.always Scenario.challenge_page) None ∅ Scenario.start in
  Forall challenged (trace o) /\
  attempts (trace o) = 2 /\ solver_calls (trace o) = 2 /\
  result o = inl (Exception "Solver is unavailable: status_code = 500") /\
  result o <> inl (ChallengeRetriesExceeded 2).
Proof.
  intros o. split.
  { apply (forallb_Forall met_challenge); [apply met_challenge_spec|].
    vm_compute. reflexivity. }
  repeat split; try (vm_compute; reflexivity).
  vm_compute. discriminate.
Qed.

(** A site that answers the page of a hard block: one attempt, and the
    call raises. *)
Lemma hard_block_raises_witness :
  let o := Scenario.request (Scenario.solver Scenario.solved)
             (Scenario.always Scenario.denied_page) None ∅ Scenario.start in
  Inspected Scenario.denied_page /\
  HardBlock (body Scenario.denied_page) /\
  trace o =
    [EvRequest Scenario.url (make_send_headers ∅ default_user_agent)
               (inr Scenario.denied_page)] /\
  result o = inl (CloudFlareBlocked "IP blocked by cloud flare").
Proof.
  intros o.
  assert (Hi : Inspected Scenario.denied_page).
  { apply BlockFacts.inspected_spec. vm_compute. reflexivity. }
  assert (Hb : HardBlock (body Scenario.denied_page)).
  { apply BlockFacts.unsolvable_spec. vm_compute. reflexivity. }
  assert (Ht : trace o =
               [] ++ EvRequest Scenario.url
                       (make_send_headers ∅ default_user_agent)
                       (inr Scenario.denied_page) :: []).
  { vm_compute. reflexivity. }
  split; [exact Hi|]. split; [exact Hb|]. split; [exact Ht|].
  exact (proj2 (hard_block_raises _ _ _ _ _ _ _ _ _ _ _ _ _ Ht Hi Hb)).
Defined.

(** A site that answers the challenge page first: the page is a challenge,
    the call makes the attempt, and the solver is called right after it. *)
Lemma challenge_iff_marker_and_title_witness :
  let o := Scenario.request (Scenario.solver Scenario.solved)
             Scenario.challenge_once None ∅ Scenario.start in
  let h := make_send_headers ∅ default_user_agent in
  Inspected Scenario.challenge_page /\
  ~ HardBlock (body Scenario.challenge_page) /\
  Challenge (body Scenario.challenge_page) /\
  trace o =
    [EvRequest Scenario.url h (inr Scenario.challenge_page);
     EvSolverPost Scenario.endpoint (Scenario.first_request Scenario.url)
                  (inr Scenario.solved);
     EvRequest Scenario.url (make_send_headers ∅ "UA2")
               (inr Scenario.ok_page)] /\
  exists post,
    trace o = EvRequest Scenario.url h (inr Scenario.challenge_page) :: post /\
    exists endpoint rq r post', post = EvSolverPost endpoint rq r :: post'.
Proof.
  intros o h.
  assert (Hi : Inspected Scenario.challenge_page).
  { apply BlockFacts.inspected_spec. vm_compute. reflexivity. }
  assert (Hb : ~ HardBlock (body Scenario.challenge_page)).
  { intros H. apply BlockFacts.unsolvable_spec in H. vm_compute in H.
    discriminate. }
  destruct (challenge_iff_marker_and_title
              Scenario.new_client
              (Scenario.solver Scenario.solved) Scenario.dumps_response
              Scenario.dumps_request
              Scenario.challenge_once Scenario.url
              None ∅ Hi Hb) as (Hcl & _ & Hrun).
  assert (Hc : Challenge (body Scenario.challenge_page)).
  { apply Hcl. vm_compute. reflexivity. }
  split; [exact Hi|]. split; [exact Hb|]. split; [exact Hc|].
  split; [vm_compute; reflexivity|].
  destruct (Hrun Scenario.start ltac:(cbn; lia) eq_refl)
    as (post & Ht & Hyes & _).
  exists post. split; [exact Ht|]. exact (Hyes Hc).
Defined.

(** A solve for a client that holds a cookie: the user agent becomes the
    solver's, the two cookies of the solution are in the jar and the old
    cookie is still there. *)
Lemma solve_applies_solution_witness :
  let o := Scenario.solve (Scenario.solver Scenario.solved) Scenario.opened in
  trace o =
    [EvSolverPost Scenario.endpoint Scenario.kept_request
                  (inr Scenario.solved)] /\
  result o = inr tt /\
  exists sol cs,
    Solver.json Scenario.solved = Some {| Solver.j_solution := Some sol |} /\
    Solver.s_cookies sol = Some cs /\
    Solver.userAgent sol = Some (_user_agent (self (final o))) /\
    CookieJar.lookup "lang" "example.com" "/" (jar_of (self (final o))) =
    CookieJar.lookup "lang" "example.com" "/" (jar_of Scenario.open_client).
Proof.
  intros o.
  assert (Ht : trace o =
               [EvSolverPost Scenario.endpoint Scenario.kept_request
                             (inr Scenario.solved)]).
  { vm_compute. reflexivity. }
  assert (Hr : result o = inr tt) by (vm_compute; reflexivity).
  split; [exact Ht|]. split; [exact Hr|].
  destruct (solve_applies_solution _ _ _ _ _ Ht Hr)
    as (sol & cs & _ & Ej & Ec & Eu & _ & Hkeep).
  exists sol, cs. split; [exact Ej|]. split; [exact Ec|]. split; [exact Eu|].
  apply Hkeep. intros c Hc.
  injection Ej as <-. injection Ec as <-.
  destruct Hc as [<- | [<- | []]]; vm_compute; discriminate.
Defined.

(** A site that answers the page: it is returned on the first attempt. *)
Lemma other_responses_returned_witness :
  let o := Scenario.request (Scenario.solver Scenario.solved)
             (Scenario.always Scenario.ok_page) None ∅ Scenario.start in
  trace o =
    [EvRequest Scenario.url (make_send_headers ∅ default_user_agent)
               (inr Scenario.ok_page)] /\
  Response.status_code Scenario.ok_page <> 403%Z /\
  result o = inr Scenario.ok_page.
Proof.
  intros o.
  assert (Ht : trace o =
               [] ++ EvRequest Scenario.url
                       (make_send_headers ∅ default_user_agent)
                       (inr Scenario.ok_page) :: []).
  { vm_compute. reflexivity. }
  assert (Hs : Response.status_code Scenario.ok_page <> 403%Z).
  { vm_compute. discriminate. }
  split; [exact Ht|]. split; [exact Hs|].
  exact (proj2 (other_responses_returned _ _ _ _ _ _ _ _ _ _ _ _ _ Ht
                  (or_introl Hs))).
Defined.

(** A call with a [solve_url], by a client that holds a cookie: the solver
    is asked about that url and is sent the cookie. *)
Lemma solver_request_contents_witness :
  let o := Scenario.request (Scenario.solver Scenario.solved)
             Scenario.challenge_once (Some "https://example.com/solve") ∅
             Scenario.opened in
  let rq :=
    {| Solver.maxTimeout := 60000; Solver.url := "https://example.com/solve";
       Solver.cookies := [send_cookie Scenario.kept];
       Solver.proxy := Some "http://proxy:3128" |} in
  trace o =
    [EvRequest Scenario.url (make_send_headers ∅ default_user_agent)
               (inr Scenario.challenge_page)] ++
    EvSolverPost Scenario.endpoint rq (inr Scenario.solved) ::
    [EvRequest Scenario.url (make_send_headers ∅ "UA2")
               (inr Scenario.ok_page)] /\
  Scenario.endpoint = _solver_url Scenario.open_client +:+ "/get_cookies" /\
  Solver.maxTimeout rq = 60000%Z /\
  Solver.proxy rq = kw_proxy (_kwargs Scenario.open_client) /\
  Solver.url rq = "https://example.com/solve".
Proof.
  intros o rq.
  assert (Ht : trace o =
    [EvRequest Scenario.url (make_send_headers ∅ default_user_agent)
               (inr Scenario.challenge_page)] ++
    EvSolverPost Scenario.endpoint rq (inr Scenario.solved) ::
    [EvRequest Scenario.url (make_send_headers ∅ "UA2")
               (inr Scenario.ok_page)]).
  { vm_compute. reflexivity. }
  split; [exact Ht|].
  destruct (proj2 (solver_request_contents _ _ _ _ _ _ _ _)
              _ _ _ _ _ _ Ht)
    as (He & Hm & Hp & Hu & _).
  split; [exact He|]. split; [exact Hm|]. split; [exact Hp|].
  apply Hu; [reflexivity | discriminate].
Defined.

(** C6 (as stated) fails: the caller gives the empty string as [solve_url],
    and the solver is asked about the url of the request. *)
Lemma solve_url_empty_counterexample :
  let o := Scenario.request (Scenario.solver Scenario.solved)
             Scenario.challenge_once (Some EmptyString) ∅ Scenario.start in
  map Solver.url (solver_requests (trace o)) = [Scenario.url] /\
  Scenario.url <> EmptyString.
Proof.
  intros o. split; [vm_compute; reflexivity | discriminate].
Qed.

(** The solver is down: the solve raises, and so does the call, after one
    attempt and one call of the solver. *)
Lemma solver_unavailable_witness :
  let o := Scenario.request (Scenario.solver Scenario.down)
             (Scenario.always Scenario.challenge_page) None ∅ Scenario.start in
  Solver.status_code Scenario.down <> 200%Z /\
  trace o =
    [EvRequest Scenario.url (make_send_headers ∅ default_user_agent)
               (inr Scenario.challenge_page);
     EvSolverPost Scenario.endpoint (Scenario.first_request Scenario.url)
                  (inr Scenario.down)] /\
  result o = inl (Exception "Solver is unavailable: status_code = 500").
Proof.
  intros o.
  assert (Hs : Solver.status_code Scenario.down <> 200%Z).
  { vm_compute. discriminate. }
  assert (Ht : trace o =
    [EvRequest Scenario.url (make_send_headers ∅ default_user_agent)
               (inr Scenario.challenge_page)] ++
    EvSolverPost Scenario.endpoint (Scenario.first_request Scenario.url)
                 (inr Scenario.down) :: []).
  { vm_compute. reflexivity. }
  split; [exact Hs|]. split; [exact Ht|].
  exact (proj2 (proj2 (solver_unavailable _ _ _ _ _ _ _ _ _ Hs)
                  _ _ _ _ _ Ht)).
Defined.


(** The caller brings a user agent of its own: the second attempt carries
    the user agent of the solver, "no-cache", and the caller's "accept". *)
Lemma send_headers_merge_witness :
  let o := Scenario.request (Scenario.solver Scenario.solved)
             Scenario.challenge_once None Scenario.caller_headers
             Scenario.start in
  let h := make_send_headers Scenario.caller_headers "UA2" in
  trace o =
    [EvRequest Scenario.url
               (make_send_headers Scenario.caller_headers default_user_agent)
               (inr Scenario.challenge_page);
     EvSolverPost Scenario.endpoint (Scenario.first_request Scenario.url)
                  (inr Scenario.solved)] ++
    EvRequest Scenario.url h (inr Scenario.ok_page) :: [] /\
  h !! "user-agent" = Some "UA2" /\
  h !! "cache-control" = Some "no-cache" /\
  h !! "accept" = Some "text/html".
Proof.
  intros o h.
  assert (Ht : trace o =
    [EvRequest Scenario.url
               (make_send_headers Scenario.caller_headers default_user_agent)
               (inr Scenario.challenge_page);
     EvSolverPost Scenario.endpoint (Scenario.first_request Scenario.url)
                  (inr Scenario.solved)] ++
    EvRequest Scenario.url h (inr Scenario.ok_page) :: []).
  { vm_compute. reflexivity. }
  split; [exact Ht|].
  destruct (send_headers_merge _ _ _ _ _ _ _ _ _ _ _ _ _ _ Ht)
    as (_ & Hu & Hc & Ho).
  split; [exact Hu|]. split; [exact Hc|].
  rewrite Ho by discriminate. reflexivity.
Defined.

(** The solver is down: the client keeps its user agent and its cookie. *)
Lemma failed_solve_keeps_session_witness :
  let o := Scenario.solve (Scenario.solver Scenario.down) Scenario.opened in
  trace o =
    [EvSolverPost Scenario.endpoint Scenario.kept_request
                  (inr Scenario.down)] /\
  Solver.status_code Scenario.down <> 200%Z /\
  self (final o) = Scenario.open_client.
Proof.
  intros o.
  assert (Ht : trace o =
               [EvSolverPost Scenario.endpoint Scenario.kept_request
                             (inr Scenario.down)]).
  { vm_compute. reflexivity. }
  assert (Hs : Solver.status_code Scenario.down <> 200%Z).
  { vm_compute. discriminate. }
  split; [exact Ht|]. split; [exact Hs|].
  exact (proj1 (proj2 (failed_solve_keeps_session _ _ _ _ _ Ht
                         (or_introl Hs)))).
Defined.

(** C10 (as stated) fails: a solve is not all or nothing. The solution has
    a cookie without a name behind a complete one; the solve raises
    [KeyError], and by then the user agent is the solver's and the first
    cookie is in the jar, while the cookie behind the broken one is not. *)
Lemma partial_solve_counterexample :
  let o := Scenario.solve (Scenario.solver Cases.half) Scenario.opened in
  result o = inl (KeyError "name") /\
  _user_agent (self Scenario.opened) = default_user_agent /\
  _user_agent (self (final o)) = "UA3" /\
  CookieJar.lookup "cf_clearance" "example.com" "/"
                   (jar_of (self Scenario.opened)) = None /\
  CookieJar.lookup "cf_clearance" "example.com" "/" (jar_of (self (final o))) =
    Some (stored ("cf_clearance", "example.com", "/") "v1") /\
  CookieJar.lookup "sid" EmptyString "/" (jar_of (self (final o))) = None /\
  self (final o) <> self Scenario.opened.
Proof.
  intros o. repeat split; try (vm_compute; reflexivity).
  vm_compute. discriminate.
Qed.

(** [get] and [post] are [_request] on the two methods of the transport:
    what holds of [_request] holds of both. *)
Lemma get_post_request {World : Type}
    (new : list PyValue -> Kwargs -> HttpClient.t)
    (solver_post : World -> string -> Solver.request ->
                   World * (PyException + Solver.response))
    (dumps_response : Solver.response_json -> string)
    (dumps_request : Solver.request -> string)
    (httpx_get httpx_post : @Transport World) url solve_url hdrs :
  get new solver_post dumps_response dumps_request httpx_get url solve_url hdrs =
  _request new solver_post dumps_response dumps_request httpx_get url solve_url
           hdrs
  /\
  post new solver_post dumps_response dumps_request httpx_post url solve_url
       hdrs =
  _request new solver_post dumps_response dumps_request httpx_post url solve_url
           hdrs.
Proof. split; reflexivity. Qed.

(** The four pages, each of its class. *)
Example classify_pages :
  classify Scenario.challenge_page = CHALLENGE /\
  classify Scenario.denied_page = HARD_BLOCK /\
  classify Scenario.forbidden_page = UNRELATED_403 /\
  classify Scenario.ok_page = OK.
Proof. repeat split; vm_compute; reflexivity. Qed.

(** White space inside the tags and before the exclamation mark is
    accepted; markup inside the title is not. *)
Example title_tolerance :
  Re.search Pattern.re_attention_required
            (PyStr.lower (PyStr.of_string Scenario.loose_title)) = true /\
  Block.solvable (PyStr.lower (PyStr.of_string Scenario.markup_title)) = false.
Proof. split; vm_compute; reflexivity. Qed.

(** The call that meets a challenge once: the solver is asked about the url
    of the request, the second attempt carries the solver's user agent, the
    page of the second attempt is returned, and the client keeps the user
    agent and the clearance cookie. *)
Example challenge_then_page :
  let o := Scenario.request (Scenario.solver Scenario.solved)
             Scenario.challenge_once None ∅ Scenario.start in
  trace o =
    [EvRequest Scenario.url (make_send_headers ∅ default_user_agent)
               (inr Scenario.challenge_page);
     EvSolverPost Scenario.endpoint (Scenario.first_request Scenario.url)
                  (inr Scenario.solved);
     EvRequest Scenario.url (make_send_headers ∅ "UA2")
               (inr Scenario.ok_page)] /\
  result o = inr Scenario.ok_page /\
  _user_agent (self (final o)) = "UA2" /\
  CookieJar.lookup "cf_clearance" "example.com" "/" (jar_of (self (final o))) =
  Some (stored ("cf_clearance", "example.com", "/") "v1") /\
  CookieJar.lookup "sid" EmptyString "/" (jar_of (self (final o))) =
  Some (stored ("sid", EmptyString, "/") "s1").
Proof. repeat split; vm_compute; reflexivity. Qed.

(** A solution with a user agent and no ["cookies"]: the subscript raises
    [KeyError] once the user agent is assigned. *)
Example solve_without_cookies :
  let o := Scenario.solve (Scenario.solver Scenario.no_cookies)
                          Scenario.opened in
  result o = inl (KeyError "cookies") /\
  _user_agent (self (final o)) = "UA2" /\
  jar_of (self (final o)) = jar_of Scenario.open_client.
Proof. repeat split; vm_compute; reflexivity. Qed.

(* ===================================================================== *)
(** ** Further properties: how a call runs and how it ends *)
(* ===================================================================== *)

Section Runs.

Context {World : Type}.
Variable httpx_AsyncClient : list PyValue -> Kwargs -> HttpClient.t.
Variable solver_post :
  World -> string -> Solver.request -> World * (PyException + Solver.response).
Variable json_dumps_response : Solver.response_json -> string.
Variable json_dumps_request : Solver.request -> string.
Variable run_method : @Transport World.
Variable url : string.
Variable solve_url : option string.
Variable hdrs : headers.

Import Spec Further.

Local Abbreviation initialised := (initialised httpx_AsyncClient).
Local Abbreviation solve :=
  (_solve_challenge solver_post json_dumps_response json_dumps_request).
Local Abbreviation loop tries :=
  (_request_loop solver_post json_dumps_response json_dumps_request
                 tries run_method url solve_url hdrs).
Local Abbreviation request :=
  (_request httpx_AsyncClient solver_post json_dumps_response json_dumps_request
            run_method url solve_url hdrs).

(** a solve that the solver's post or a body that is not JSON stops *)
Lemma solve_stopped target (m : @Machine World) endpoint rq r :
  trace (solve target m) = [EvSolverPost endpoint rq r] ->
  match r with
  | inl e => result (solve target m) = inl e /\
             self (final (solve target m)) = self m
  | inr sr =>
      Solver.status_code sr = 200%Z -> Solver.json sr = None ->
      result (solve target m) = inl JSONDecodeError /\
      self (final (solve target m)) = self m
  end.
Proof.
  pose proof (solve_eq solver_post json_dumps_response json_dumps_request
                       target m) as E.
  cbv zeta in E. rewrite E. clear E.
  destruct (snd (solver_post _ _ _)) as [e|sr']; cbn [trace].
  { intros [= _ _ <-]. auto. }
  intros Ht. assert (r = inr sr') as ->.
  { repeat match type of Ht with
           | context [match ?x with _ => _ end] => destruct x
           end; cbn [trace] in Ht; now injection Ht. }
  intros Es Ej. apply Z.eqb_eq in Es. rewrite Es, Ej. auto.
Qed.

(** a solve returns only on a complete solution *)
Lemma solve_returned target (m : @Machine World) endpoint rq r :
  is_Some (_http_client (self m)) ->
  trace (solve target m) = [EvSolverPost endpoint rq r] ->
  (result (solve target m) = inr tt <-> solved (EvSolverPost endpoint rq r)).
Proof.
  intros Hc Ht. split.
  - intros Hr. destruct r as [e|sr].
    + destruct (solve_stopped _ _ Ht) as [Hr' _]. congruence.
    + eapply solve_applied in Hr as (ua & cs & Es & Ej & Hall & _);
        [|exact Ht].
      exists sr. split; [reflexivity|]. unfold solution_complete.
      apply Z.eqb_eq in Es. now rewrite Es, Ej.
  - intros (sr & -> & Hsr). eapply solve_returns; eassumption.
Qed.

(** the events of a run go round: attempt, solver, attempt, solver ... *)
Lemma loop_rounds tries :
  forall m : @Machine World,
    is_Some (_http_client (self m)) ->
    exists j,
      j <= tries /\ solver_calls (trace (loop tries m)) = j /\
      (map kind_of (trace (loop tries m)) = rounds j /\
       attempts (trace (loop tries m)) = j /\ (tries = 0 \/ 0 < j)
       \/
       j < tries /\
       map kind_of (trace (loop tries m)) = rounds j ++ [KRequest] /\
       attempts (trace (loop tries m)) = S j).
Proof.
  induction tries as [|k IH]; intros m Hc.
  { exists 0. rewrite loop_zero. cbn. split; [lia|]. split; [reflexivity|].
    left. repeat split. now left. }
  destruct Hc as [c Ec].
  pose proof (loop_shape solver_post json_dumps_response json_dumps_request
                         run_method url solve_url hdrs k m Ec) as Hs.
  cbv zeta in Hs.
  destruct Hs as [H1 | (endpoint & rq & r & Et & [H2 | (H3 & _ & _)])].
  - exists 0. rewrite H1. cbn. split; [lia|]. split; [reflexivity|].
    right. split; [lia | auto].
  - exists 1. rewrite H2. cbn. split; [lia|]. split; [reflexivity|].
    left. repeat split. right. lia.
  - match type of H3 with
    | context [solve ?t ?m1] =>
        destruct (solve_keeps solver_post json_dumps_response
                              json_dumps_request t m1) as (_ & Hcl & _)
    end.
    destruct (IH _ (Hcl ltac:(cbn; eauto)))
      as (j & Hj & Hsc & [(Hk & Ha & _) | (Hlt & Hk & Ha)]);
      exists (S j); rewrite H3; unfold solver_calls, attempts in *;
      cbn [map kind_of List.filter is_solver_post is_request length rounds app];
      rewrite Hsc, Ha, Hk; (split; [lia|]); (split; [reflexivity|]).
    + left. repeat split. right. lia.
    + right. split; [lia | auto].
Qed.

(** how a run of the loop ends *)
Lemma loop_outcome tries :
  forall m : @Machine World,
    is_Some (_http_client (self m)) ->
    match result (loop tries m) with
    | inr response =>
        exists pre u h,
          trace (loop tries m) = pre ++ [EvRequest u h (inr response)] /\
          passes response
    | inl e =>
        (e = ChallengeRetriesExceeded (_max_tries (self m)) /\
         map kind_of (trace (loop tries m)) = rounds tries /\
         Forall (fun ev => challenged ev /\ solved ev) (trace (loop tries m)))
        \/
        (exists pre u h,
            trace (loop tries m) = pre ++ [EvRequest u h (inl e)])
        \/
        (exists pre u h response,
            trace (loop tries m) = pre ++ [EvRequest u h (inr response)] /\
            classify response = HARD_BLOCK /\
            e = CloudFlareBlocked "IP blocked by cloud flare")
        \/
        (exists pre endpoint rq r (m1 : @Machine World),
            trace (loop tries m) = pre ++ [EvSolverPost endpoint rq r] /\
            ~ solved (EvSolverPost endpoint rq r) /\
            trace (solve (solve_target url solve_url) m1) =
              [EvSolverPost endpoint rq r] /\
            result (solve (solve_target url solve_url) m1) = inl e)
    end.
Proof.
  induction tries as [|k IH]; intros m Hc.
  { rewrite loop_zero. cbn. left. auto. }
  destruct Hc as [c Ec].
  rewrite (loop_step solver_post json_dumps_response json_dumps_request
                     run_method url solve_url hdrs k m Ec).
  cbv zeta.
  destruct (run_method _ _ _ _).2 as [e|response]; cbn [trace result].
  { right. left. now exists [], url, (make_send_headers hdrs (_user_agent (self m))). }
  destruct (classify response) eqn:Ecl; cbn [trace result].
  - exists [], url, (make_send_headers hdrs (_user_agent (self m))).
    split; [reflexivity | now left].
  - right. right. left.
    now exists [], url, (make_send_headers hdrs (_user_agent (self m))),
               response.
  - match goal with
    | |- context [solve ?t ?m1] =>
        destruct (solve_trace solver_post json_dumps_response
                              json_dumps_request t m1)
          as (endpoint & rq & r & Et);
        destruct (solve_keeps solver_post json_dumps_response
                              json_dumps_request t m1) as (Hcfg & Hcl & _);
        pose proof (solve_returned t m1 ltac:(cbn; eauto) Et) as Hret;
        specialize (IH (final (solve t m1)) (Hcl ltac:(cbn; eauto)));
        set (m1' := m1) in *
    end.
    rewrite Et.
    set (ev := EvRequest url (make_send_headers hdrs (_user_agent (self m)))
                         (inr response)) in *.
    assert (Hev : challenged ev /\ solved ev).
    { split; [|exact I]. exists response. auto. }
    destruct (result (solve _ m1')) as [e|[]] eqn:Er; cbn [trace result app].
    + right. right. right.
      exists [ev], endpoint, rq, r, m1'. repeat split; try assumption.
      intros Hs. apply Hret in Hs. discriminate.
    + assert (Hsev : challenged (EvSolverPost endpoint rq r) /\
                     solved (EvSolverPost endpoint rq r)).
      { split; [exact I|]. now apply Hret. }
      destruct (result (loop k _)) as [e|response'].
      * destruct IH as [(-> & Hk & Hall)
                       | [(pre & u & h & Ht)
                         | [(pre & u & h & resp & Ht & Hb & ->)
                           | (pre & ep & rq' & r' & m2 & Ht & Hn & Ht2 & Hr2)]]].
        -- left. split.
           { destruct Hcfg as (_ & _ & ->). reflexivity. }
           split; [cbn [map kind_of rounds]; now rewrite Hk|].
           repeat (constructor; [assumption|]). exact Hall.
        -- right. left. exists (ev :: EvSolverPost endpoint rq r :: pre), u, h.
           now rewrite Ht.
        -- right. right. left.
           exists (ev :: EvSolverPost endpoint rq r :: pre), u, h, resp.
           now rewrite Ht.
        -- right. right. right.
           exists (ev :: EvSolverPost endpoint rq r :: pre), ep, rq', r', m2.
           now rewrite Ht.
      * destruct IH as (pre & u & h & Ht & Hp).
        exists (ev :: EvSolverPost endpoint rq r :: pre), u, h.
        now rewrite Ht.
  - exists [], url, (make_send_headers hdrs (_user_agent (self m))).
    split; [reflexivity | now right].
Qed.

(** a call of the solver stands behind an attempt that met a challenge *)
Lemma loop_solver_preceded tries :
  forall (m : @Machine World) pre endpoint rq r post,
    is_Some (_http_client (self m)) ->
    trace (loop tries m) = pre ++ EvSolverPost endpoint rq r :: post ->
    exists pre' u h response,
      pre = pre' ++ [EvRequest u h (inr response)] /\
      classify response = CHALLENGE.
Proof.
  induction tries as [|k IH]; intros m pre endpoint rq r post Hc.
  { rewrite loop_zero. cbn. destruct pre; discriminate. }
  destruct Hc as [c Ec].
  rewrite (loop_step solver_post json_dumps_response json_dumps_request
                     run_method url solve_url hdrs k m Ec).
  cbv zeta.
  assert (Hone : forall e : Event,
             is_request e = true ->
             [e] = pre ++ EvSolverPost endpoint rq r :: post -> False).
  { intros e He Ht. destruct pre as [|p0 pre].
    - injection Ht as -> _. discriminate.
    - injection Ht as _ Ht. destruct pre; discriminate. }
  destruct (run_method _ _ _ _).2 as [e|response]; cbn [trace result].
  { intros Ht. now apply Hone in Ht. }
  destruct (classify response) eqn:Ecl; cbn [trace result];
    try (intros Ht; now apply Hone in Ht).
  match goal with
  | |- context [solve ?t ?m1] =>
      destruct (solve_trace solver_post json_dumps_response
                            json_dumps_request t m1)
        as (endpoint' & rq' & r' & Et);
      destruct (solve_keeps solver_post json_dumps_response
                            json_dumps_request t m1) as (_ & Hcl & _);
      specialize (IH (final (solve t m1)))
  end.
  rewrite Et.
  match goal with
  | |- context [result ?o] => destruct (result o)
  end; cbn [trace result app]; intros Ht;
    destruct pre as [|p0 [|p1 pre]]; try discriminate.
  - injection Ht as <- _ _.
    exists [], url, (make_send_headers hdrs (_user_agent (self m))), response.
    auto.
  - injection Ht as _ _ Ht. destruct pre; discriminate.
  - injection Ht as <- _ _.
    exists [], url, (make_send_headers hdrs (_user_agent (self m))), response.
    auto.
  - injection Ht as <- <- Ht.
    destruct (IH _ _ _ _ _ (Hcl ltac:(cbn; eauto)) Ht)
      as (pre' & u0 & h0 & resp & -> & Hcl').
    exists (EvRequest url (make_send_headers hdrs (_user_agent (self m)))
                      (inr response) :: EvSolverPost endpoint' rq' r' :: pre'),
           u0, h0, resp.
    auto.
Qed.


(** X2. An exception the transport raises on an attempt leaves the call as
    it is: nothing follows the attempt, neither a call of the solver nor
    another attempt. *)
Theorem transport_error_propagates (m : @Machine World) pre u h e post :
  trace (request m) = pre ++ EvRequest u h (inl e) :: post ->
  post = [] /\ result (request m) = inl e.
Proof.
  intros Ht.
  apply request_attempt in Ht as (k & m' & Hc & -> & _ & Ht).
  now apply attempt_outcome in Ht as (_ & _ & H).
Qed.

(** X3. An exception raised by the post to the solver leaves the call as it
    is, and a 200 of the solver whose body is not JSON ends the call with
    the decoding error; in both cases nothing follows the call of the
    solver. *)
Theorem solver_error_propagates (m : @Machine World) pre endpoint rq r post :
  trace (request m) = pre ++ EvSolverPost endpoint rq r :: post ->
  match r with
  | inl e => post = [] /\ result (request m) = inl e
  | inr sr =>
      Solver.status_code sr = 200%Z -> Solver.json sr = None ->
      post = [] /\ result (request m) = inl JSONDecodeError
  end.
Proof.
  intros Ht.
  apply request_solve in Ht as (m1 & _ & Ht & Ho).
  pose proof (solve_stopped _ _ Ht) as Hs.
  destruct r as [e|sr].
  - destruct Hs as [Hr _]. now rewrite Hr in Ho.
  - intros Es Ej. destruct (Hs Es Ej) as [Hr _]. now rewrite Hr in Ho.
Qed.

(** X4. The response a call returns is the response of its last attempt,
    and it is never a page the client takes for a block: it is not a 403
    HTML page with a body, or it is neither a hard block nor a challenge. *)
Theorem returned_response_passes (m : @Machine World) response :
  result (request m) = inr response ->
  exists pre u h,
    trace (request m) = pre ++ [EvRequest u h (inr response)] /\
    (~ Inspected response \/
     ~ HardBlock (body response) /\ ~ Challenge (body response)).
Proof.
  rewrite request_eq. intros Hr.
  pose proof (loop_outcome (_max_tries (self m)) (initialised m)
                           (initialised_client httpx_AsyncClient m)) as Ho.
  rewrite Hr in Ho. destruct Ho as (pre & u & h & Ht & Hp).
  exists pre, u, h. split; [exact Ht|].
  pose proof (classify_spec response) as Hc.
  destruct Hp as [E | E]; rewrite E in Hc; tauto.
Qed.


(** X6. The solver is never called but right behind an attempt that met a
    challenge page: the event in front of a call of the solver is an
    attempt whose response is a 403 HTML page, not a hard block, with a
    marker in body and title. *)
Theorem solver_called_after_challenge
    (m : @Machine World) pre endpoint rq r post :
  trace (request m) = pre ++ EvSolverPost endpoint rq r :: post ->
  exists pre' u h response,
    pre = pre' ++ [EvRequest u h (inr response)] /\
    Inspected response /\ ~ HardBlock (body response) /\
    Challenge (body response).
Proof.
  rewrite request_eq. intros Ht.
  apply loop_solver_preceded in Ht as (pre' & u & h & response & -> & Hc);
    [|apply initialised_client].
  exists pre', u, h, response. split; [reflexivity|].
  pose proof (classify_spec response) as Hs. now rewrite Hc in Hs.
Qed.

End Runs.

(* ===================================================================== *)
(** ** Further properties: the session *)
(* ===================================================================== *)

Module FurtherFacts.

Import Spec Further.

Lemma key_eqb_spec k k' : key_eqb k k' = true <-> k = k'.
Proof.
  destruct k as [[n d] p], k' as [[n' d'] p']. unfold key_eqb.
  rewrite !andb_true_iff, !String.eqb_eq. split.
  - intros [[-> ->] ->]. reflexivity.
  - intros [= -> -> ->]. auto.
Qed.

Lemma key_of_complete c :
  cookie_complete c = true ->
  exists name value,
    Solver.c_name c = Some name /\ Solver.c_value c = Some value /\
    key_of c = (name, default EmptyString (Solver.c_domain c),
                default "/" (Solver.c_path c)).
Proof.
  unfold cookie_complete, key_of.
  destruct (Solver.c_name c) as [name|]; [|discriminate].
  destruct (Solver.c_value c) as [value|]; [|discriminate].
  intros _. now exists name, value.
Qed.

(** what the jar holds under a key once the cookies of a solution are set:
    the value of the last cookie with that key, or what it held *)
Lemma jar_after_lookup cs :
  forall jar k,
    forallb cookie_complete cs = true ->
    lookup_key k (jar_after cs jar) = after_solution k cs (lookup_key k jar).
Proof.
  unfold after_solution.
  induction cs as [|c cs IH]; intros jar k Hall; [reflexivity|].
  cbn [forallb] in Hall. apply andb_true_iff in Hall as [Hc Hall].
  change (jar_after (c :: cs) jar) with (jar_after cs (jar_after [c] jar)).
  rewrite (IH _ k Hall). cbn [last_value].
  destruct (last_value k cs); [reflexivity|].
  destruct (key_of_complete c Hc) as (name & value & En & Ev & Ek).
  unfold jar_after. cbn [fold_left]. rewrite En, Ev.
  destruct (key_eqb (key_of c) k) eqn:E.
  - apply key_eqb_spec in E. subst k. rewrite Ek.
    apply (JarFacts.lookup_key_set (name, _, _) value jar).
  - assert (N : key_of c <> k).
    { intros H. apply key_eqb_spec in H. congruence. }
    rewrite Ek in N.
    apply (JarFacts.lookup_key_set_ne (k := (name, _, _)) value jar N).
Qed.

(** every cookie of a complete solution has a last value *)
Lemma last_value_In cs c :
  forallb cookie_complete cs = true -> In c cs ->
  exists value, last_value (key_of c) cs = Some value.
Proof.
  induction cs as [|c0 cs IH]; intros Hall Hin; [destruct Hin|].
  cbn [forallb] in Hall. apply andb_true_iff in Hall as [Hc Hall].
  cbn [last_value].
  destruct (last_value (key_of c) cs) as [v|] eqn:E; [eauto|].
  destruct Hin as [-> | Hin].
  - destruct (key_of_complete c Hc) as (name & value & _ & Ev & _).
    assert (key_eqb (key_of c) (key_of c) = true) as ->
        by now apply key_eqb_spec.
    eauto.
  - destruct (IH Hall Hin) as [v Hv]. congruence.
Qed.

(** setting a cookie takes no key away *)
Lemma set_cookie_keeps c jar name domain path :
  is_Some (CookieJar.lookup name domain path jar) ->
  is_Some (CookieJar.lookup name domain path (CookieJar.set_cookie c jar)).
Proof.
  intros H.
  destruct (JarFacts.key_of_dec
              (Cookie.name c, Cookie.domain c, Cookie.path c)
              (name, domain, path)) as [E | N].
  - injection E as <- <- <-. rewrite JarFacts.lookup_set_cookie_eq. eauto.
  - now rewrite JarFacts.lookup_set_cookie_ne.
Qed.

End FurtherFacts.

Section Sessions.

Context {World : Type}.
Variable solver_post :
  World -> string -> Solver.request -> World * (PyException + Solver.response).
Variable json_dumps_response : Solver.response_json -> string.
Variable json_dumps_request : Solver.request -> string.

Import Spec Further FurtherFacts.

Local Abbreviation solve :=
  (_solve_challenge solver_post json_dumps_response json_dumps_request).

(** setting the cookies of a solution takes no key away, however far it
    gets *)
Lemma set_cookies_keep_keys cs :
  forall (m : @Machine World) name domain path,
    is_Some (CookieJar.lookup name domain path (jar_of (self m))) ->
    is_Some (CookieJar.lookup name domain path
               (jar_of (self (final (for_each cs set_solver_cookie m))))).
Proof.
  induction cs as [|c cs IH]; intros m name domain path H; [exact H|].
  rewrite for_each_cons, set_solver_cookie_eq.
  destruct (_http_client (self m)) as [client|] eqn:Ec; cbn; [|exact H].
  destruct (Solver.c_name c); cbn; [|exact H].
  destruct (Solver.c_value c); cbn; [|exact H].
  apply IH. unfold jar_of in *. rewrite Ec in H. cbn.
  now apply set_cookie_keeps.
Qed.

(** the cookies of a solution up to the first that is not complete *)
Lemma set_cookies_stop done c rest :
  forall m : @Machine World,
    is_Some (_http_client (self m)) ->
    forallb cookie_complete done = true ->
    cookie_complete c = false ->
    let o := for_each (done ++ c :: rest) set_solver_cookie m in
    result o = inl (KeyError (missing_key c)) /\
    jar_of (self (final o)) = jar_after done (jar_of (self m)).
Proof.
  induction done as [|c0 done IH]; intros m [client Ec] Hall Hc; cbv zeta.
  - cbn [app]. rewrite for_each_cons, set_solver_cookie_eq, Ec.
    unfold cookie_complete in Hc. unfold missing_key.
    destruct (Solver.c_name c); cbn; [|auto].
    destruct (Solver.c_value c); cbn; [discriminate | auto].
  - cbn [forallb] in Hall. apply andb_true_iff in Hall as [H0 Hall].
    cbn [app]. rewrite for_each_cons, set_solver_cookie_eq, Ec.
    destruct (key_of_complete c0 H0) as (name & value & En & Ev & _).
    rewrite En, Ev. cbn [result final trace].
    match goal with
    | |- context [for_each _ set_solver_cookie ?m1] =>
        destruct (IH m1 ltac:(cbn; eauto) Hall Hc) as [Hr Hj]
    end.
    rewrite Hr. cbn [result final]. split; [reflexivity|].
    rewrite Hj. unfold jar_of at 2. rewrite Ec.
    unfold jar_after. cbn [fold_left]. now rewrite En, Ev.
Qed.

(** X7. After a solve that returns, the jar holds under every key the
    cookie of the last cookie of the solution with that key (name, domain
    or the empty string, path or "/"), and under the keys the solution does
    not name what it held before: a later cookie of the solution
    overwrites an earlier one, and nothing else changes. *)
Theorem solve_last_cookie_wins
    target (m : @Machine World) endpoint rq sr sol cs :
  trace (solve target m) = [EvSolverPost endpoint rq (inr sr)] ->
  result (solve target m) = inr tt ->
  Solver.json sr = Some {| Solver.j_solution := Some sol |} ->
  Solver.s_cookies sol = Some cs ->
  forall name domain path,
    CookieJar.lookup name domain path
                     (jar_of (self (final (solve target m)))) =
    after_solution (name, domain, path) cs
                   (CookieJar.lookup name domain path (jar_of (self m))).
Proof.
  intros Ht Hr Ej Ec name domain path.
  eapply solve_applied in Hr as (ua & cs' & _ & Ej' & Hall & _ & Hj);
    [|exact Ht].
  rewrite Ej in Ej'. injection Ej' as ->. cbn in Ec. injection Ec as <-.
  rewrite Hj.
  apply (jar_after_lookup cs' (jar_of (self m)) (name, domain, path) Hall).
Qed.

(** X8. A solve takes no cookie out of the jar, whatever the solver answers
    and whether the solve returns or raises: a key that held a cookie
    before the solve holds one after it. *)
Theorem solve_never_drops_cookies target (m : @Machine World) name domain path :
  is_Some (CookieJar.lookup name domain path (jar_of (self m))) ->
  is_Some (CookieJar.lookup name domain path
             (jar_of (self (final (solve target m))))).
Proof.
  intros H.
  pose proof (solve_eq solver_post json_dumps_response json_dumps_request
                       target m) as E.
  cbv zeta in E. rewrite E. clear E.
  repeat match goal with
         | |- context [match ?x with _ => _ end] =>
             lazymatch x with
             | context [for_each] => fail
             | _ => destruct x
             end
         end; cbn [final self]; try exact H.
  apply set_cookies_keep_keys. exact H.
Qed.

(** X9. A solution that misses a key read by subscript raises [KeyError]
    for that key and keeps what was assigned before: without ["userAgent"]
    the client is as it was; without ["cookies"] the user agent is replaced
    and the jar is as it was; with a cookie without ["name"] or ["value"]
    the user agent is replaced and the cookies in front of that cookie are
    set, those behind it are not. *)
Theorem solve_missing_key target (m : @Machine World) endpoint rq sr sol :
  trace (solve target m) = [EvSolverPost endpoint rq (inr sr)] ->
  Solver.status_code sr = 200%Z ->
  Solver.json sr = Some {| Solver.j_solution := Some sol |} ->
  is_Some (_http_client (self m)) ->
  match Solver.userAgent sol with
  | None =>
      result (solve target m) = inl (KeyError "userAgent") /\
      self (final (solve target m)) = self m
  | Some ua =>
      _user_agent (self (final (solve target m))) = ua /\
      match Solver.s_cookies sol with
      | None =>
          result (solve target m) = inl (KeyError "cookies") /\
          jar_of (self (final (solve target m))) = jar_of (self m)
      | Some cs =>
          forall done c rest,
            cs = done ++ c :: rest ->
            forallb cookie_complete done = true ->
            cookie_complete c = false ->
            result (solve target m) = inl (KeyError (missing_key c)) /\
            jar_of (self (final (solve target m))) =
            jar_after done (jar_of (self m))
      end
  end.
Proof.
  pose proof (solve_eq solver_post json_dumps_response json_dumps_request
                       target m) as E.
  cbv zeta in E. rewrite E. clear E.
  destruct (snd (solver_post _ _ _)) as [e|sr']; cbn [trace]; [intros [=]|].
  intros Ht. assert (sr' = sr) as ->.
  { repeat match type of Ht with
           | context [match ?x with _ => _ end] => destruct x
           end; cbn [trace] in Ht; now injection Ht. }
  clear Ht. intros Es Ej Hc. apply Z.eqb_eq in Es. rewrite Es, Ej.
  cbn [Solver.j_solution].
  destruct (Solver.userAgent sol) as [ua|]; [|now cbn].
  destruct (Solver.s_cookies sol) as [cs|]; cbn [final result self].
  2:{ repeat split. }
  match goal with
  | |- context [for_each cs set_solver_cookie ?m1] =>
      destruct (set_cookies_quiet cs m1) as (_ & _ & Hu & _);
      set (m1' := m1) in *
  end.
  cbv zeta in Hu. split; [exact Hu|].
  intros done c rest -> Hall Hn.
  apply (set_cookies_stop done c rest m1'); [| assumption | assumption].
  exact Hc.
Qed.

End Sessions.

Section Retries.

Context {World : Type}.
Variable httpx_AsyncClient : list PyValue -> Kwargs -> HttpClient.t.
Variable solver_post :
  World -> string -> Solver.request -> World * (PyException + Solver.response).
Variable json_dumps_response : Solver.response_json -> string.
Variable json_dumps_request : Solver.request -> string.
Variable run_method : @Transport World.
Variable url : string.
Variable solve_url : option string.
Variable hdrs : headers.

Import Spec Further FurtherFacts.

Local Abbreviation solve :=
  (_solve_challenge solver_post json_dumps_response json_dumps_request).
Local Abbreviation loop tries :=
  (_request_loop solver_post json_dumps_response json_dumps_request
                 tries run_method url solve_url hdrs).
Local Abbreviation request :=
  (_request httpx_AsyncClient solver_post json_dumps_response
            json_dumps_request run_method url solve_url hdrs).

(** an attempt right behind a call of the solver: the solve returned, and
    the attempt starts from the state the solve left *)
Lemma loop_retry tries :
  forall m : @Machine World,
    is_Some (_http_client (self m)) ->
    forall pre endpoint rq r u h r' post,
      trace (loop tries m) =
        pre ++ EvSolverPost endpoint rq r :: EvRequest u h r' :: post ->
      exists (m1 : @Machine World) c,
        trace (solve (solve_target url solve_url) m1) =
          [EvSolverPost endpoint rq r] /\
        result (solve (solve_target url solve_url) m1) = inr tt /\
        let m2 := final (solve (solve_target url solve_url) m1) in
        _http_client (self m2) = Some c /\
        h = make_send_headers hdrs (_user_agent (self m2)) /\
        r' = (run_method (world m2) c url h).2.
Proof.
  intros m Hc pre endpoint rq r u h r' post Ht.
  apply loop_positions in Ht
    as (k & m' & [c' Ec'] & _ & _ & _ & e0 & _ & Ht); [|assumption].
  rewrite (loop_step solver_post json_dumps_response json_dumps_request
                     run_method url solve_url hdrs k m' Ec') in Ht.
  cbv zeta in Ht.
  destruct (run_method _ _ _ _).2 as [e|response]; cbn [trace] in Ht;
    [discriminate|].
  destruct (classify response); cbn [trace] in Ht; try discriminate.
  match type of Ht with
  | context [solve ?t ?m1] =>
      destruct (solve_trace solver_post json_dumps_response
                            json_dumps_request t m1)
        as (ep' & rq' & r0 & Et);
      destruct (solve_keeps solver_post json_dumps_response
                            json_dumps_request t m1) as (_ & Hcl & _);
      specialize (Hcl ltac:(cbn; eauto));
      exists m1;
      remember (solve t m1) as o eqn:Eo
  end.
  rewrite Et in Ht.
  destruct (result o) as [e|[]] eqn:Er; cbn [trace app] in Ht;
    [discriminate|].
  destruct Hcl as [c Ec]. exists c.
  remember (final o) as m2 eqn:Em2.
  destruct k as [|k]; [rewrite loop_zero in Ht; discriminate|].
  pose proof (loop_shape solver_post json_dumps_response
                json_dumps_request run_method url solve_url hdrs k m2 Ec)
    as Hs.
  cbv zeta in Hs.
  remember (trace (loop (S k) m2)) as tr eqn:Etr.
  assert (Htr : exists rest,
             tr = EvRequest url
                    (make_send_headers hdrs (_user_agent (self m2)))
                    (run_method (world m2) c url
                       (make_send_headers hdrs (_user_agent (self m2)))).2
                  :: rest).
  { destruct Hs as [H1 | (ep & rq0 & r1 & _ & [H2 | (H3 & _)])]; eauto. }
  destruct Htr as [rest ->].
  injection Ht as _ <- <- <- <- <- <- _.
  repeat split; assumption || reflexivity.
Qed.

(** X10. The cookies of a solution are sent on the retry: an attempt that
    follows a call of the solver in a call carries the user agent of the
    solution and goes through the transport client in the state the solve
    left, and the jar of that transport client holds under every key the
    cookie of the last cookie of the solution with that key, and under the
    other keys what the jar held when the solver was called. *)
Theorem solved_cookies_sent_on_retry
    (m : @Machine World) pre endpoint rq sr u h r post :
  trace (request m) =
    pre ++ EvSolverPost endpoint rq (inr sr) :: EvRequest u h r :: post ->
  exists (m1 : @Machine World) sol ua cs c,
    trace (solve (solve_target url solve_url) m1) =
      [EvSolverPost endpoint rq (inr sr)] /\
    Solver.json sr = Some {| Solver.j_solution := Some sol |} /\
    Solver.userAgent sol = Some ua /\
    Solver.s_cookies sol = Some cs /\
    let m2 := final (solve (solve_target url solve_url) m1) in
    _http_client (self m2) = Some c /\
    r = (run_method (world m2) c url h).2 /\
    h !! "user-agent" = Some ua /\
    forall name domain path,
      CookieJar.lookup name domain path (HttpClient.cookies c) =
      after_solution (name, domain, path) cs
                     (CookieJar.lookup name domain path (jar_of (self m1))).
Proof.
  rewrite request_eq. intros Ht.
  apply loop_retry in Ht as (m1 & c & Et & Er & Ec & Hh & Hr);
    [|apply initialised_client].
  cbv zeta in Ec, Hh, Hr.
  pose proof Er as Er'.
  eapply solve_applied in Er' as (ua & cs & _ & Ej & Hall & Hu & Hj);
    [|exact Et].
  exists m1, {| Solver.userAgent := Some ua; Solver.s_cookies := Some cs |},
         ua, cs, c.
  split; [exact Et|]. split; [exact Ej|]. split; [reflexivity|].
  split; [reflexivity|]. cbv zeta. split; [exact Ec|]. split; [exact Hr|].
  split.
  - rewrite Hh, Hu. unfold make_send_headers.
    rewrite lookup_insert_ne by discriminate. apply lookup_insert_eq.
  - intros name domain path.
    unfold jar_of in Hj at 1. rewrite Ec in Hj. rewrite Hj.
    apply (jar_after_lookup cs (jar_of (self m1)) (name, domain, path) Hall).
Qed.

End Retries.

(* ===================================================================== *)
(** ** Further properties: calls one after the other, and the scope *)
(* ===================================================================== *)

Section FirstAttempt.

Context {World : Type}.
Variable httpx_AsyncClient : list PyValue -> Kwargs -> HttpClient.t.
Variable solver_post :
  World -> string -> Solver.request -> World * (PyException + Solver.response).
Variable json_dumps_response : Solver.response_json -> string.
Variable json_dumps_request : Solver.request -> string.
Variable run_method : @Transport World.
Variable url : string.
Variable solve_url : option string.
Variable hdrs : headers.

Local Abbreviation initialised := (initialised httpx_AsyncClient).
Local Abbreviation request :=
  (_request httpx_AsyncClient solver_post json_dumps_response json_dumps_request
            run_method url solve_url hdrs).

(** the first attempt of a call goes to [url], carries the user agent of
    the client, and is sent through the transport client the client has, or
    through the one [_init_client] makes when it has none *)
Lemma first_attempt_through (m : @Machine World) u h r post :
  trace (request m) = EvRequest u h r :: post ->
  u = url /\
  h = make_send_headers hdrs (_user_agent (self m)) /\
  r = (run_method (world m) (client_of httpx_AsyncClient (self m)) url h).2.
Proof.
  intros Ht.
  assert (Hk : 0 < _max_tries (self m)).
  { destruct (_max_tries (self m)) eqn:E; [|lia].
    rewrite request_eq, E, loop_zero in Ht. discriminate. }
  destruct (request_first httpx_AsyncClient solver_post json_dumps_response
              json_dumps_request run_method url solve_url hdrs m Hk)
    as [post' Hf].
  cbv zeta in Hf. rewrite Hf in Ht. injection Ht as <- <- <- _. auto.
Qed.

End FirstAttempt.

Section Calls.

Context {World : Type}.
Variable httpx_AsyncClient : list PyValue -> Kwargs -> HttpClient.t.
Variable solver_post :
  World -> string -> Solver.request -> World * (PyException + Solver.response).
Variable json_dumps_response : Solver.response_json -> string.
Variable json_dumps_request : Solver.request -> string.
Variable run_method : @Transport World.
Variable url : string.
Variable solve_url : option string.
Variable hdrs : headers.

Import Spec Further FurtherFacts.

Local Abbreviation initialised := (initialised httpx_AsyncClient).
Local Abbreviation solve :=
  (_solve_challenge solver_post json_dumps_response json_dumps_request).
Local Abbreviation loop tries :=
  (_request_loop solver_post json_dumps_response json_dumps_request
                 tries run_method url solve_url hdrs).
Local Abbreviation request :=
  (_request httpx_AsyncClient solver_post json_dumps_response json_dumps_request
            run_method url solve_url hdrs).

(** the loop keeps the configuration and the transport client *)
Lemma loop_keeps tries :
  forall m : @Machine World,
    is_Some (_http_client (self m)) ->
    same_config m (final (loop tries m)) /\
    is_Some (_http_client (self (final (loop tries m)))).
Proof.
  induction tries as [|k IH]; intros m Hc.
  { rewrite loop_zero. split; [apply same_config_refl | exact Hc]. }
  destruct Hc as [c Ec].
  rewrite (loop_step solver_post json_dumps_response json_dumps_request
                     run_method url solve_url hdrs k m Ec).
  cbv zeta.
  assert (Ha : forall w c',
             same_config m (answered m w c') /\
             is_Some (_http_client (self (answered m w c'))))
    by (intros; split; [apply answered_config | cbn; eauto]).
  destruct (run_method _ _ _ _).2 as [e|response]; cbn [final]; [apply Ha|].
  destruct (classify response); cbn [final]; try apply Ha.
  match goal with
  | |- context [solve ?t ?m1] =>
      destruct (solve_keeps solver_post json_dumps_response
                            json_dumps_request t m1) as (Hcfg & Hcl & _);
      specialize (Hcl ltac:(cbn; eauto));
      specialize (IH _ Hcl)
  end.
  assert (Hcfg' : same_config m (final (solve (solve_target url solve_url)
                    (answered m (run_method (world m) c url
                       (make_send_headers hdrs (_user_agent (self m)))).1.1
                       (run_method (world m) c url
                       (make_send_headers hdrs (_user_agent (self m)))).1.2)))).
  { eapply same_config_trans; [apply answered_config | exact Hcfg]. }
  match goal with
  | |- context [result ?o] => destruct (result o)
  end; cbn [final]; [auto|].
  destruct IH as [IH1 IH2]. split; [|exact IH2].
  eapply same_config_trans; eassumption.
Qed.

(** the user agent after some events is the one in front of them or one an
    answer of the solver brought *)
Lemma user_agent_after_source tr :
  forall ua,
    user_agent_after tr ua = ua \/
    exists endpoint rq r,
      In (EvSolverPost endpoint rq r) tr /\
      reported_user_agent r = Some (user_agent_after tr ua).
Proof.
  induction tr as [|[u h r|endpoint rq r] tr IH]; intros ua;
    cbn [user_agent_after]; [now left | |].
  - destruct (IH ua) as [E | (ep & rq & r' & Hin & Hr)]; [now left|].
    right. exists ep, rq, r'. split; [now right | exact Hr].
  - destruct (IH (default ua (reported_user_agent r)))
      as [E | (ep & rq' & r' & Hin & Hr)].
    + destruct (reported_user_agent r) as [ua'|] eqn:Er; cbn in *.
      * right. exists endpoint, rq, r. split; [now left | congruence].
      * now left.
    + right. exists ep, rq', r'. split; [now right | exact Hr].
Qed.


Variable run_method' : @Transport World.
Variable url' : string.
Variable solve_url' : option string.
Variable hdrs' : headers.

Local Abbreviation request' :=
  (_request httpx_AsyncClient solver_post json_dumps_response json_dumps_request
            run_method' url' solve_url' hdrs').

(** X12. The next call on the same client starts from what the call before
    it left: its first attempt carries the user agent the earlier call
    ended with, and goes through the transport client, jar included, that
    the earlier call left. *)
Theorem next_call_starts_from_session (m : @Machine World) u h r post :
  trace (request' (final (request m))) = EvRequest u h r :: post ->
  h !! "user-agent" =
    Some (user_agent_after (trace (request m)) (_user_agent (self m))) /\
  exists c,
    _http_client (self (final (request m))) = Some c /\
    r = (run_method' (world (final (request m))) c url' h).2.
Proof.
  intros Ht.
  assert (Hc : is_Some (_http_client (self (final (request m))))).
  { rewrite request_eq.
    apply (loop_keeps (_max_tries (self m)) (initialised m)
                      (initialised_client httpx_AsyncClient m)). }
  destruct Hc as [c Ec].
  rewrite <- (request_user_agent httpx_AsyncClient solver_post json_dumps_response
                json_dumps_request run_method url solve_url hdrs m).
  set (m1 := final (request m)) in *.
  apply first_attempt_through in Ht. destruct Ht as (_ & Hh & Hr).
  unfold client_of in Hr. rewrite Ec in Hr. cbn [default] in Hr. split.
  - rewrite Hh. unfold make_send_headers.
    rewrite lookup_insert_ne by discriminate. apply lookup_insert_eq.
  - exists c. auto.
Qed.


End Calls.

Section ScopeFacts.

Context {World : Type}.
Variable httpx_AsyncClient : list PyValue -> Kwargs -> HttpClient.t.
Variable httpx_aenter : World -> HttpClient.t -> World * (PyException + unit).
Variable httpx_aexit : World -> HttpClient.t -> World * (PyException + PyValue).
Variable solver_post :
  World -> string -> Solver.request -> World * (PyException + Solver.response).
Variable json_dumps_response : Solver.response_json -> string.
Variable json_dumps_request : Solver.request -> string.
Variable run_method : @Transport World.
Variable url : string.
Variable solve_url : option string.
Variable hdrs : headers.

Local Abbreviation aenter := (__aenter__ httpx_AsyncClient httpx_aenter).
Local Abbreviation aexit := (__aexit__ httpx_aexit).
Local Abbreviation request :=
  (_request httpx_AsyncClient solver_post json_dumps_response
            json_dumps_request run_method url solve_url hdrs).

(** entering the scope replaces the transport client by one made from the
    arguments of the constructor, also when entering the transport client
    raises, and changes nothing else of the client *)
Lemma aenter_new_client (m : @Machine World) :
  let c := httpx_AsyncClient (_args (self m)) (_kwargs (self m)) in
  final (aenter m) =
    {| world := (httpx_aenter (world m) c).1;
       self := with_http_client (Some c) (self m) |} /\
  result (aenter m) = (httpx_aenter (world m) c).2.
Proof.
  unfold __aenter__, _init_client, await_http_client, bind, get_self,
    put_self, ret.
  cbn.
  destruct (httpx_aenter _ _) as [w [e|[]]]; cbn; split; reflexivity.
Qed.

(** leaving the scope: without a transport client nothing happens and
    [False] is returned; with one, the value or the exception is that of
    closing it, and the client drops it when closing it returned *)
Lemma aexit_outcome (m : @Machine World) :
  match _http_client (self m) with
  | None =>
      aexit m = {| final := m; trace := []; result := inr (PyBool false) |}
  | Some c =>
      let a := httpx_aexit (world m) c in
      result (aexit m) = a.2 /\
      final (aexit m) =
        {| world := a.1;
           self := match a.2 with
                   | inl _ => self m
                   | inr _ => with_http_client None (self m)
                   end |}
  end.
Proof.
  unfold __aexit__, await_http_client, bind, get_self, put_self, ret.
  cbn.
  destruct (_http_client (self m)) as [c|] eqn:Ec; cbn; rewrite ?Ec;
    [|reflexivity].
  destruct (httpx_aexit _ _) as [w [e|v]]; cbn; split; reflexivity.
Qed.



End ScopeFacts.

(* ===================================================================== *)
(** ** Further properties: the tests on the page *)
(* ===================================================================== *)

Module PageFacts.

Import PyStr Re Pattern Spec Further PyStrFacts BlockFacts.

Local Abbreviation T := of_string.

(** what occurs in the title occurs in the body *)
Lemma title_occurs (Inner : text -> Prop) p body :
  (forall inner, Inner inner -> Occurs p inner) ->
  HasTitle Inner body -> Occurs p body.
Proof.
  intros H (pre & m & post & -> & w1 & w2 & inner & w3 & w4 & w5 & -> & Hi).
  destruct (H inner) as (a & b & ->); [tauto|].
  exists (pre ++ T "<" ++ w1 ++ T "title" ++ w2 ++ T ">" ++ a),
         (b ++ T "<" ++ w3 ++ T "/" ++ w4 ++ T "title" ++ w5 ++ T ">" ++ post).
  now rewrite <- !app_assoc.
Qed.

Lemma title_text_occurs k inner :
  k <> AttentionRequired -> TitleText k inner -> Occurs (T (phrase k)) inner.
Proof.
  intros Hk (t1 & p & t2 & -> & _ & Hp & _).
  destruct k; cbn [Spelled] in Hp; try contradiction; subst p;
    now exists t1, t2.
Qed.

(** X16. The title alone decides for most patterns. A body is a hard block
    exactly when it holds a title "access denied ... cloudflare ...", or
    it holds "cloudflare" and a title "ip banned ..."; it passes the test
    of a challenge exactly when it holds a title with "just a moment...",
    "captcha challenge" or "ddos-guard", or it holds "attention required!"
    and a title with "attention required", white space and "!". The other
    tests of [in] follow from the titles. *)
Theorem title_decides (body : text) :
  (Block.unsolvable body = true <->
   HasTitle AccessDeniedCloudflare body \/
   Occurs (T "cloudflare") body /\ HasTitle IpBanned body) /\
  (Block.solvable body = true <->
   HasTitle (TitleText JustAMoment) body \/
   Occurs (T "attention required!") body /\
   HasTitle (TitleText AttentionRequired) body \/
   HasTitle (TitleText CaptchaChallenge) body \/
   HasTitle (TitleText DdosGuard) body).
Proof.
  split.
  - rewrite unsolvable_spec. unfold HardBlock.
    assert (Ha : HasTitle AccessDeniedCloudflare body ->
                 Occurs (T "access denied") body).
    { apply title_occurs. intros inner (w & c & t1 & t2 & -> & _).
      exists w, ([c] ++ t1 ++ T "cloudflare" ++ t2). reflexivity. }
    assert (Hi : HasTitle IpBanned body -> Occurs (T "ip banned") body).
    { apply title_occurs. intros inner (w & t & -> & _). now exists w, t. }
    tauto.
  - rewrite solvable_spec. unfold Challenge.
    assert (Ho : forall k, k <> AttentionRequired ->
                           HasTitle (TitleText k) body ->
                           Occurs (T (phrase k)) body).
    { intros k Hk. apply title_occurs. intros inner.
      now apply title_text_occurs. }
    split.
    + intros [[] [H1 H2]]; cbn [phrase] in H1; tauto.
    + intros [H | [[H1 H2] | [H | H]]].
      * exists JustAMoment. split; [apply Ho; [discriminate | exact H] | exact H].
      * exists AttentionRequired. auto.
      * exists CaptchaChallenge.
        split; [apply Ho; [discriminate | exact H] | exact H].
      * exists DdosGuard. split; [apply Ho; [discriminate | exact H] | exact H].
Qed.

Lemma empty_text (s : string) :
  String.eqb s EmptyString = match T s with [] => true | _ :: _ => false end.
Proof. now destruct s. Qed.

Lemma empty_lower (l : text) :
  match lower l with [] => true | _ :: _ => false end =
  match l with [] => true | _ :: _ => false end.
Proof. now destruct l. Qed.

(** X17. The client does not look at the case of the letters of a page:
    two responses with the same status and content type whose bodies are
    the same once lower-cased are treated alike. *)
Theorem classification_ignores_case (r1 r2 : Response.t) :
  Response.status_code r1 = Response.status_code r2 ->
  Response.content_type r1 = Response.content_type r2 ->
  lower (T (Response.text r1)) = lower (T (Response.text r2)) ->
  classify r1 = classify r2.
Proof.
  intros Es Ec El. unfold classify, Spec.body, Block.inspected.
  rewrite Es, Ec, El, !empty_text.
  rewrite <- (empty_lower (T (Response.text r1))),
          <- (empty_lower (T (Response.text r2))), El.
  reflexivity.
Qed.

End PageFacts.

(* ===================================================================== *)
(** ** The further properties at work *)
(* ===================================================================== *)

Import Further.

(** The transport fails to connect: the call raises what the transport
    raised, after one attempt. *)
Lemma transport_error_propagates_witness :
  let o := Scenario.request (Scenario.solver Scenario.solved)
             Cases.broken None ∅ Scenario.start in
  trace o =
    [EvRequest Scenario.url (make_send_headers ∅ default_user_agent)
               (inl (TransportError "ConnectTimeout"))] /\
  result o = inl (TransportError "ConnectTimeout").
Proof.
  intros o.
  assert (Ht : trace o =
               [] ++ EvRequest Scenario.url
                       (make_send_headers ∅ default_user_agent)
                       (inl (TransportError "ConnectTimeout")) :: []).
  { vm_compute. reflexivity. }
  split; [exact Ht|].
  exact (proj2 (transport_error_propagates _ _ _ _ _ _ _ _ _ _ _ _ _ _ Ht)).
Defined.

(** The solver cannot be reached: the call raises what the post raised. *)
Lemma solver_error_propagates_witness :
  let o := Scenario.request Cases.unreachable
             (Scenario.always Scenario.challenge_page) None ∅
             Scenario.start in
  trace o =
    [EvRequest Scenario.url (make_send_headers ∅ default_user_agent)
               (inr Scenario.challenge_page);
     EvSolverPost Scenario.endpoint (Scenario.first_request Scenario.url)
                  (inl (TransportError "ConnectError"))] /\
  result o = inl (TransportError "ConnectError").
Proof.
  intros o.
  assert (Ht : trace o =
    [EvRequest Scenario.url (make_send_headers ∅ default_user_agent)
               (inr Scenario.challenge_page)] ++
    EvSolverPost Scenario.endpoint (Scenario.first_request Scenario.url)
                 (inl (TransportError "ConnectError")) :: []).
  { vm_compute. reflexivity. }
  split; [exact Ht|].
  exact (proj2 (solver_error_propagates _ _ _ _ _ _ _ _ _ _ _ _ _ _ Ht)).
Defined.

(** The page behind the challenge is returned, and it is no block page. *)
Lemma returned_response_passes_witness :
  let o := Scenario.request (Scenario.solver Scenario.solved)
             Scenario.challenge_once None ∅ Scenario.start in
  result o = inr Scenario.ok_page /\
  exists pre u h,
    trace o = pre ++ [EvRequest u h (inr Scenario.ok_page)] /\
    (~ Inspected Scenario.ok_page \/
     ~ HardBlock (body Scenario.ok_page) /\
     ~ Challenge (body Scenario.ok_page)).
Proof.
  intros o.
  assert (Hr : result o = inr Scenario.ok_page) by (vm_compute; reflexivity).
  split; [exact Hr|].
  exact (returned_response_passes _ _ _ _ _ _ _ _ _ Hr).
Defined.


(** The one call of the solver stands behind the attempt that met the
    challenge page. *)
Lemma solver_called_after_challenge_witness :
  let o := Scenario.request (Scenario.solver Scenario.solved)
             Scenario.challenge_once None ∅ Scenario.start in
  let first :=
    EvRequest Scenario.url (make_send_headers ∅ default_user_agent)
              (inr Scenario.challenge_page) in
  trace o =
    [first] ++
    EvSolverPost Scenario.endpoint (Scenario.first_request Scenario.url)
                 (inr Scenario.solved) ::
    [EvRequest Scenario.url (make_send_headers ∅ "UA2")
               (inr Scenario.ok_page)] /\
  exists pre' u h response,
    [first] = pre' ++ [EvRequest u h (inr response)] /\
    Inspected response /\ ~ HardBlock (body response) /\
    Challenge (body response).
Proof.
  intros o first.
  assert (Ht : trace o =
    [first] ++
    EvSolverPost Scenario.endpoint (Scenario.first_request Scenario.url)
                 (inr Scenario.solved) ::
    [EvRequest Scenario.url (make_send_headers ∅ "UA2")
               (inr Scenario.ok_page)]).
  { vm_compute. reflexivity. }
  split; [exact Ht|].
  exact (solver_called_after_challenge _ _ _ _ _ _ _ _ _ _ _ _ _ _ Ht).
Defined.

(** A solution that names the clearance cookie twice: the second value is
    the one in the jar. *)
Lemma solve_last_cookie_wins_witness :
  let o := Scenario.solve (Scenario.solver Cases.twice) Scenario.opened in
  trace o =
    [EvSolverPost Scenario.endpoint Scenario.kept_request
                  (inr Cases.twice)] /\
  result o = inr tt /\
  CookieJar.lookup "cf_clearance" "example.com" "/" (jar_of (self (final o))) =
  Some (stored ("cf_clearance", "example.com", "/") "v2") /\
  CookieJar.lookup "lang" "example.com" "/" (jar_of (self (final o))) =
  Some Scenario.kept.
Proof.
  intros o.
  assert (Ht : trace o =
               [EvSolverPost Scenario.endpoint Scenario.kept_request
                             (inr Cases.twice)]).
  { vm_compute. reflexivity. }
  assert (Hr : result o = inr tt) by (vm_compute; reflexivity).
  split; [exact Ht|]. split; [exact Hr|].
  pose proof (solve_last_cookie_wins _ _ _ _ _ Ht Hr eq_refl eq_refl) as H.
  split; rewrite H; vm_compute; reflexivity.
Defined.

(** A solve that raises half way keeps the cookie the client held. *)
Lemma solve_never_drops_cookies_witness :
  let o := Scenario.solve (Scenario.solver Cases.half) Scenario.opened in
  is_Some (CookieJar.lookup "lang" "example.com" "/"
             (jar_of Scenario.open_client)) /\
  result o = inl (KeyError "name") /\
  is_Some (CookieJar.lookup "lang" "example.com" "/"
             (jar_of (self (final o)))).
Proof.
  intros o.
  assert (H : is_Some (CookieJar.lookup "lang" "example.com" "/"
                         (jar_of Scenario.open_client))).
  { vm_compute. eauto. }
  split; [exact H|]. split; [vm_compute; reflexivity|].
  exact (solve_never_drops_cookies _ _ _ _ Scenario.opened _ _ _ H).
Defined.

(** A solution whose second cookie has no name: the first cookie is set,
    the third is not, and the user agent is the solver's. *)
Lemma solve_missing_key_witness :
  let o := Scenario.solve (Scenario.solver Cases.half) Scenario.opened in
  trace o =
    [EvSolverPost Scenario.endpoint Scenario.kept_request
                  (inr Cases.half)] /\
  result o = inl (KeyError "name") /\
  _user_agent (self (final o)) = "UA3" /\
  jar_of (self (final o)) =
  jar_after [Scenario.clearance] (jar_of Scenario.open_client) /\
  CookieJar.lookup "sid" EmptyString "/" (jar_of (self (final o))) = None.
Proof.
  intros o.
  assert (Ht : trace o =
               [EvSolverPost Scenario.endpoint Scenario.kept_request
                             (inr Cases.half)]).
  { vm_compute. reflexivity. }
  assert (Hc : is_Some (_http_client (self Scenario.opened))).
  { vm_compute. eauto. }
  split; [exact Ht|].
  pose proof (solve_missing_key _ _ _ _ _ Ht eq_refl eq_refl Hc) as H.
  cbn [Solver.userAgent Solver.s_cookies] in H. destruct H as [Hu H].
  destruct (H [Scenario.clearance] Cases.nameless [Scenario.session]
              eq_refl eq_refl eq_refl) as [Hr Hj].
  split; [exact Hr|]. split; [exact Hu|]. split; [exact Hj|].
  vm_compute. reflexivity.
Defined.

(** A site that lets in the client that holds the clearance cookie: the
    attempt behind the solve is let in, with the user agent of the
    solution. *)
Lemma solved_cookies_sent_on_retry_witness :
  let site := Cases.behind "cf_clearance" "example.com" "/"
                           Scenario.challenge_page in
  let o := Scenario.request (Scenario.solver Scenario.solved) site None ∅
             Scenario.start in
  let h := make_send_headers ∅ "UA2" in
  trace o =
    [EvRequest Scenario.url (make_send_headers ∅ default_user_agent)
               (inr Scenario.challenge_page)] ++
    EvSolverPost Scenario.endpoint (Scenario.first_request Scenario.url)
                 (inr Scenario.solved) ::
    EvRequest Scenario.url h (inr Scenario.ok_page) :: [] /\
  h !! "user-agent" = Some "UA2" /\
  exists w c,
    inr Scenario.ok_page = (site w c Scenario.url h).2 /\
    CookieJar.lookup "cf_clearance" "example.com" "/" (HttpClient.cookies c) =
    Some (stored ("cf_clearance", "example.com", "/") "v1").
Proof.
  intros site o h.
  assert (Ht : trace o =
    [EvRequest Scenario.url (make_send_headers ∅ default_user_agent)
               (inr Scenario.challenge_page)] ++
    EvSolverPost Scenario.endpoint (Scenario.first_request Scenario.url)
                 (inr Scenario.solved) ::
    EvRequest Scenario.url h (inr Scenario.ok_page) :: []).
  { vm_compute. reflexivity. }
  split; [exact Ht|].
  destruct (solved_cookies_sent_on_retry _ _ _ _ _ _ _ _ _ _ _ _ _ _ _ _ _ Ht)
    as (m1 & sol & ua & cs & c & _ & Ej & Eu & Ec & _ & Hr & Hu & Hl).
  injection Ej as <-. injection Eu as <-. injection Ec as <-.
  split; [exact Hu|].
  eexists _, c. split; [exact Hr|].
  rewrite Hl. reflexivity.
Defined.

(** A second call on the client that went through a solve: its attempt
    carries the solver's user agent. *)
Lemma next_call_starts_from_session_witness :
  let o := Scenario.request (Scenario.solver Scenario.solved)
             Scenario.challenge_once None ∅ Scenario.start in
  let o' := Scenario.request (Scenario.solver Scenario.solved)
              (Scenario.always Scenario.ok_page) None
              Scenario.caller_headers (final o) in
  let h := make_send_headers Scenario.caller_headers "UA2" in
  trace o' = EvRequest Scenario.url h (inr Scenario.ok_page) :: [] /\
  h !! "user-agent" = Some "UA2".
Proof.
  intros o o' h.
  assert (Ht : trace o' =
               EvRequest Scenario.url h (inr Scenario.ok_page) :: []).
  { vm_compute. reflexivity. }
  split; [exact Ht|].
  destruct (next_call_starts_from_session _ _ _ _ _ _ _ _ _ _ _ _ _ Ht)
    as [Hu _].
  rewrite Hu. vm_compute. reflexivity.
Defined.




(** The transport client fails to close: [__aexit__] raises, the client
    keeps the transport client, and a call afterwards is let in by the site
    that asks for the clearance cookie. *)
Example close_fails_keeps_client :
  let site := Cases.behind "cf_clearance" "example.com" "/"
                           Scenario.forbidden_page in
  let o := __aexit__ Cases.stuck Cases.seeded_solved in
  result o = inl (TransportError "CloseError") /\
  _http_client (self (final o)) = _http_client (self Cases.seeded_solved) /\
  trace (Scenario.request (Scenario.solver Scenario.solved) site None ∅
           (final o)) =
    [EvRequest Scenario.url (make_send_headers ∅ "UA2")
               (inr Scenario.ok_page)].
Proof. repeat split; vm_compute; reflexivity. Qed.

(** The challenge page in capitals is the challenge page. *)
Lemma classification_ignores_case_witness :
  PyStr.lower (PyStr.of_string (Response.text Cases.shouting_page)) =
  PyStr.lower (PyStr.of_string (Response.text Scenario.challenge_page)) /\
  classify Cases.shouting_page = classify Scenario.challenge_page.
Proof.
  assert (H : PyStr.lower (PyStr.of_string
                             (Response.text Cases.shouting_page)) =
              PyStr.lower (PyStr.of_string
                             (Response.text Scenario.challenge_page))).
  { vm_compute. reflexivity. }
  split; [exact H|].
  exact (PageFacts.classification_ignores_case
           Cases.shouting_page Scenario.challenge_page eq_refl eq_refl H).
Defined.

(** The two tests of [in] that the titles do not give: a title with white
    space before the exclamation mark is no challenge without the phrase
    in the body, and a title "ip banned" is no hard block without
    "cloudflare" in the body. *)
Example tests_the_titles_leave :
  Block.solvable
    (PyStr.lower (PyStr.of_string
       "<html><title>Attention Required ! | Cloudflare</title></html>"))
  = false /\
  Block.unsolvable
    (PyStr.lower (PyStr.of_string
       "<html><title>IP banned</title></html>"))
  = false /\
  Block.unsolvable
    (PyStr.lower (PyStr.of_string
       "<html><title>IP banned</title>by Cloudflare</html>"))
  = true.
Proof. repeat split; vm_compute; reflexivity. Qed.
